(** * Privacy-Preserving CDSS: the retrieval-augmented answering pipeline

  A shallow embedding of the chunker ([src/processing/chunker.py]), the
  retriever and context assembler ([src/rag/retrieval.py]), the
  pipeline orchestrator ([src/rag/pipeline.py]) and the similarity of two
  embeddings ([src/embedding/embed_model.py]), with the properties the
  specification states about them.

  Python [str] values are modelled as sequences of one-byte characters
  ([list ascii], code points 0..255); Python [int] values as [Z];
  [None]-able arguments as [option]. *)

From Stdlib Require Import ZArith QArith Qround Qabs String Ascii DecimalString.
From Stdlib Require Import Floats.
From stdpp Require Import list.

Local Open Scope Z_scope.

(** ** Python built-ins used by the modelled code *)

Module Py.

Abbreviation str := (list ascii).

(** A string literal of the source. *)
Definition lit (s : string) : str := list_ascii_of_string s.

(** [len(x)] as a Python int. *)
Definition len {A} (l : list A) : Z := Z.of_nat (length l).

(** [c.isspace()] on code points 0..255: TAB LF VT FF CR, the four
    separators FS GS RS US, SPACE, NEL and NBSP. *)
Definition isspace (c : ascii) : bool :=
  let n := nat_of_ascii c in
  ((9 <=? n) && (n <=? 13) || (28 <=? n) && (n <=? 32)
   || (n =? 133) || (n =? 160))%nat.

(** [s.split()]: the maximal runs of non-whitespace characters.
    [cur] is the word being read. *)
Fixpoint split_from (cur : str) (s : str) : list str :=
  match s with
  | [] => match cur with [] => [] | _ => [cur] end
  | c :: s' =>
      if isspace c
      then match cur with
           | [] => split_from [] s'
           | _ => cur :: split_from [] s'
           end
      else split_from (cur ++ [c]) s'
  end.

Definition split (s : str) : list str := split_from [] s.

(** [s.lstrip()], [s.rstrip()] and [s.strip()]. *)
Fixpoint lstrip (s : str) : str :=
  match s with
  | c :: s' => if isspace c then lstrip s' else s
  | [] => []
  end.

Definition rstrip (s : str) : str := rev (lstrip (rev s)).

Definition strip (s : str) : str := rstrip (lstrip s).

(** [sep.join(parts)]. *)
Fixpoint join (sep : str) (parts : list str) : str :=
  match parts with
  | [] => []
  | [p] => p
  | p :: ps => p ++ sep ++ join sep ps
  end.

(** Truthiness of a string: [not s] is [true] on the empty string. *)
Definition not_str (s : str) : bool :=
  match s with [] => true | _ => false end.

(** Truthiness of a list: an empty list is falsy. *)
Definition nonempty_list {A} (l : list A) : bool :=
  match l with [] => false | _ => true end.

(** [x or d] for an optional int: [None] and [0] are falsy. *)
Definition or_int (x : option Z) (d : Z) : Z :=
  match x with
  | None => d
  | Some v => if v =? 0 then d else v
  end.

(** An index of a slice, clamped as [list.__getitem__] does for slices:
    a negative index counts from the end, and both ends saturate. *)
Definition clamp (n i : Z) : Z :=
  if i <? 0 then Z.max (i + n) 0 else Z.min i n.

(** [l[start:stop]]. *)
Definition slice {A} (l : list A) (start stop : Z) : list A :=
  let lo := clamp (len l) start in
  let hi := clamp (len l) stop in
  take (Z.to_nat (hi - lo)) (drop (Z.to_nat lo) l).

End Py.

Import Py.

(** ** Settings ([src/config/settings.py])

  The three values the modelled code reads; each comes from the
  environment, with the defaults of [default_settings]. *)

Record Settings := {
CHUNK_SIZE : Z;
CHUNK_OVERLAP : Z;
TOP_K_RESULTS : Z
}.

Definition default_settings : Settings :=
{| CHUNK_SIZE := 500; CHUNK_OVERLAP := 50; TOP_K_RESULTS := 5 |}.

(** ** Chunker ([src/processing/chunker.py]) *)

Module Chunker.

(** *** Word-count mode

    The [while] loop of [chunk_by_words]; [fuel] bounds the number of
    iterations and [None] means the bound was reached with the loop
    still running. *)
Fixpoint chunk_by_words_loop (fuel : nat) (words : list str)
    (chunk_size overlap : Z) (start : Z) (chunks : list str)
    : option (list str) :=
  match fuel with
  | O => None
  | S fuel' =>
      if start <? len words then
        let end_ := start + chunk_size in
        let chunk_words := slice words start end_ in
        let chunks := chunks ++ [join (lit " ") chunk_words] in
        let start := end_ - overlap in
        if start >=? len words - overlap
        then Some chunks
        else chunk_by_words_loop fuel' words chunk_size overlap start chunks
      else Some chunks
  end.

Definition chunk_by_words (fuel : nat) (text : str)
    (chunk_size overlap : Z) : option (list str) :=
  chunk_by_words_loop fuel (split text) chunk_size overlap 0 [].

(** *** Sentence-aware mode

    The pattern [(?<=[.!?])\s+(?=[A-Z])] of [chunk_by_sentences]. *)

(** The class [[.!?]] of the lookbehind. *)
Definition is_terminal (c : ascii) : bool :=
  let n := nat_of_ascii c in ((n =? 46) || (n =? 33) || (n =? 63))%nat.

(** The class [[A-Z]] of the lookahead. *)
Definition is_upper (c : ascii) : bool :=
  let n := nat_of_ascii c in ((65 <=? n) && (n <=? 90))%nat.

Definition lookahead_upper (s : str) : bool :=
  match s with
  | c :: _ => is_upper c
  | [] => false
  end.

(** [\s+(?=[A-Z])] at the head of [s]: the greedy quantifier takes as
    much whitespace as it can and gives characters back until the
    lookahead holds. The result is the last character matched and the
    text after the match. *)
Fixpoint match_spaces (s : str) : option (ascii * str) :=
  match s with
  | c :: s' =>
      if isspace c then
        match match_spaces s' with
        | Some m => Some m
        | None => if lookahead_upper s' then Some (c, s') else None
        end
      else None
  | [] => None
  end.

(** The whole pattern at a position whose previous character is [prev]
    ([None] at the start of the text). *)
Definition match_at (prev : option ascii) (s : str) : option (ascii * str) :=
  match prev with
  | Some p => if is_terminal p then match_spaces s else None
  | None => None
  end.

(** [sentence_pattern.split(text)]: scan for the leftmost match, cut
    there, resume after it. [piece] is the text since the last cut.
    [fuel] only makes the recursion structural: each step consumes at
    least one character, and [re_split] gives more fuel than the text
    has characters. *)
Fixpoint re_split_loop (fuel : nat) (prev : option ascii) (piece : str)
    (s : str) : list str :=
  match fuel with
  | O => [piece ++ s]
  | S fuel' =>
      match match_at prev s with
      | Some (c, rest) => piece :: re_split_loop fuel' (Some c) [] rest
      | None =>
          match s with
          | [] => [piece]
          | c :: s' => re_split_loop fuel' (Some c) (piece ++ [c]) s'
          end
      end
  end.

Definition re_split (text : str) : list str :=
  re_split_loop (S (length text)) None [] text.

(** [[s.strip() for s in sentences if s.strip()]]. *)
Definition clean_sentences (sentences : list str) : list str :=
  map strip (List.filter (fun s => negb (not_str (strip s))) sentences).

(** [len(s.split())]. *)
Definition word_count (s : str) : Z := len (split s).

(** The inner loop [for s in reversed(current_chunk)], which collects
    the sentences kept for the overlap. *)
Fixpoint overlap_loop (reversed_chunk : list str) (overlap : Z)
    (overlap_sentences : list str) (overlap_word_count : Z)
    : list str * Z :=
  match reversed_chunk with
  | [] => (overlap_sentences, overlap_word_count)
  | s :: rest =>
      let s_words := word_count s in
      if overlap_word_count + s_words <=? overlap
      then overlap_loop rest overlap (s :: overlap_sentences)
             (overlap_word_count + s_words)
      else (overlap_sentences, overlap_word_count)
  end.

(** The outer loop [for sentence in sentences], followed by the
    emission of the last chunk. *)
Fixpoint sentence_loop (sentences : list str) (target_size overlap : Z)
    (chunks : list str) (current_chunk : list str)
    (current_word_count : Z) : list str :=
  match sentences with
  | [] =>
      if nonempty_list current_chunk
      then chunks ++ [join (lit " ") current_chunk]
      else chunks
  | sentence :: rest =>
      let sentence_words := word_count sentence in
      if (current_word_count + sentence_words >? target_size)
         && nonempty_list current_chunk
      then
        let chunks := chunks ++ [join (lit " ") current_chunk] in
        let '(overlap_sentences, overlap_word_count) :=
          overlap_loop (rev current_chunk) overlap [] 0 in
        sentence_loop rest target_size overlap chunks
          (overlap_sentences ++ [sentence])
          (overlap_word_count + sentence_words)
      else
        sentence_loop rest target_size overlap chunks
          (current_chunk ++ [sentence])
          (current_word_count + sentence_words)
  end.

Definition chunk_by_sentences (text : str) (target_size overlap : Z)
    : list str :=
  let sentences := clean_sentences (re_split text) in
  if nonempty_list sentences
  then sentence_loop sentences target_size overlap [] [] 0
  else if not_str (strip text) then [] else [text].

(** *** The public entry point *)

Definition chunk_text (st : Settings) (fuel : nat) (text : str)
    (chunk_size chunk_overlap : option Z) (respect_sentences : bool)
    : option (list str) :=
  if not_str text || not_str (strip text) then Some []
  else
    let chunk_size := or_int chunk_size (CHUNK_SIZE st) in
    let chunk_overlap := or_int chunk_overlap (CHUNK_OVERLAP st) in
    if respect_sentences
    then Some (chunk_by_sentences text chunk_size chunk_overlap)
    else chunk_by_words fuel text chunk_size chunk_overlap.

(** *** Chunks with their provenance

    [sentence_loop] again, keeping for every chunk which of its
    sentences were carried over from the previous chunk and which are
    new. The chunk itself is the join of both ([chunk_of]); erasing the
    distinction gives back [sentence_loop]. *)

Record parts := {
  carried : list str;
  fresh : list str
}.

Definition sentences_of (p : parts) : list str := carried p ++ fresh p.

Definition chunk_of (p : parts) : str := join (lit " ") (sentences_of p).

Fixpoint sentence_loop_parts (sentences : list str) (target_size overlap : Z)
    (chunks : list parts) (current : parts) (current_word_count : Z)
    : list parts :=
  match sentences with
  | [] =>
      if nonempty_list (sentences_of current)
      then chunks ++ [current]
      else chunks
  | sentence :: rest =>
      let sentence_words := word_count sentence in
      if (current_word_count + sentence_words >? target_size)
         && nonempty_list (sentences_of current)
      then
        let chunks := chunks ++ [current] in
        let '(overlap_sentences, overlap_word_count) :=
          overlap_loop (rev (sentences_of current)) overlap [] 0 in
        sentence_loop_parts rest target_size overlap chunks
          {| carried := overlap_sentences; fresh := [sentence] |}
          (overlap_word_count + sentence_words)
      else
        sentence_loop_parts rest target_size overlap chunks
          {| carried := carried current;
             fresh := fresh current ++ [sentence] |}
          (current_word_count + sentence_words)
  end.

Definition chunk_by_sentences_parts (text : str) (target_size overlap : Z)
    : list parts :=
  sentence_loop_parts (clean_sentences (re_split text)) target_size overlap
    [] {| carried := []; fresh := [] |} 0.

(** [" ".join(s.split())]: the text with every whitespace run replaced
    by one space and the ends trimmed. *)
Definition normalize_ws (s : str) : str := join (lit " ") (split s).

(** Each chunk's carried sentences end the chunk before it:
    [previous] is the sentence list of the preceding chunk. *)
Fixpoint carried_from (previous : list str) (ps : list parts) : Prop :=
  match ps with
  | [] => True
  | p :: ps' =>
      carried p `suffix_of` previous /\ carried_from (sentences_of p) ps'
  end.

(** The characters that survive when all whitespace is deleted. *)
Definition nonspace (c : ascii) : bool := negb (isspace c).

(** The chunks with their carried sentences removed, as strings. *)
Definition fresh_chunks (ps : list parts) : list str :=
  map (fun p => join (lit " ") (fresh p)) ps.

End Chunker.

(** ** Floats

    The operations on Python floats that the retriever and the context
    assembler use. They are built-ins of the language, so the code is
    modelled over any implementation of them; the one law recorded is that
    [0 > 0] is false. *)

Class PyFloat (F : Type) := {
f_zero : F;
f_ge : F -> F -> bool;
f_gt : F -> F -> bool;
f_round3 : F -> F;
f_format2 : F -> str;
f_gt_zero_zero : f_gt f_zero f_zero = false
}.

(** ** Collaborators and effects

    The embedder, the vector index and the completion service are outside
    the modelled code. Each is a function that returns a value or raises;
    every call is recorded, so that a statement can say which calls were
    made. *)

Inductive exn := Raised (message : str).

Definition result (A : Type) : Type := exn + A.

(** A row of the [documents] table as [search_similar] returns it. A key
    that is absent from the dict is [None]; the code reads every key with
    [dict.get] and a default. *)
Record Chunk (F : Type) := {
content : option str;
source_file : option str;
chunk_index : option Z;
similarity : option F
}.
Arguments content {F}.
Arguments source_file {F}.
Arguments chunk_index {F}.
Arguments similarity {F}.

Inductive call (F : Type) :=
| EmbedText (query : str)
| SearchSimilar (query_embedding : list F) (top_k : Z)
    (source_filter : option str)
| GenerateAnswer (query context : str) (temperature : F)
| GenerateAnswerStream (query context : str) (temperature : F).
Arguments EmbedText {F}.
Arguments SearchSimilar {F}.
Arguments GenerateAnswer {F}.
Arguments GenerateAnswerStream {F}.

Definition is_generation {F} (c : call F) : bool :=
  match c with
  | GenerateAnswer _ _ _ | GenerateAnswerStream _ _ _ => true
  | _ => false
  end.

(** A stream of answer fragments, fully consumed: the fragments yielded
    and, if the service failed on the way, the exception that ended it. *)
Record Services (F : Type) := {
embed_text : str -> result (list F);
search_similar : list F -> Z -> option str -> result (list (Chunk F));
generate_answer : str -> str -> F -> result str;
generate_answer_stream : str -> str -> F -> list str * option exn
}.
Arguments embed_text {F}.
Arguments search_similar {F}.
Arguments generate_answer {F}.
Arguments generate_answer_stream {F}.

(** A computation that logs the collaborator calls it makes and then
    returns or raises. *)
Module Eff.

Definition M (F A : Type) : Type := list (call F) * result A.

#[global] Instance eff_ret {F} : MRet (M F) := fun A a => ([], inr a).

#[global] Instance eff_bind {F} : MBind (M F) := fun A B k m =>
  match m with
  | (log, inl e) => (log, inl e)
  | (log, inr a) => let '(log', r) := k a in (log ++ log', r)
  end.

(** One call: the log entry and what the collaborator answered. *)
Definition perform {F A} (c : call F) (r : result A) : M F A := ([c], r).

End Eff.

Import Eff.

(** ** Retriever and context assembler ([src/rag/retrieval.py]) *)

Module Retrieval.
Section WithServices.
Context {F : Type} `{PyFloat F} (st : Settings) (svc : Services F).

Definition retrieve_relevant_chunks (query : str) (top_k : option Z)
    (source_filter : option str) (min_similarity : F)
    : M F (list (Chunk F)) :=
  let top_k := or_int top_k (TOP_K_RESULTS st) in
  query_embedding ← perform (EmbedText query) (embed_text svc query);
  results ← perform (SearchSimilar query_embedding top_k source_filter)
              (search_similar svc query_embedding top_k source_filter);
  let results :=
    if f_gt min_similarity f_zero
    then List.filter
           (fun r => f_ge (default f_zero (similarity r)) min_similarity)
           results
    else results in
  mret results.

End WithServices.

Section Formatting.
Context {F : Type} `{PyFloat F}.

(** The line feed of the source's [\n]. *)
Definition nl : str := ["010"%char].

(** [str(i)] for an int. *)
Definition str_of_int (i : Z) : str :=
  lit (DecimalString.NilEmpty.string_of_int (Z.to_int i)).

(** The loop [for i, chunk in enumerate(chunks, 1)] of [format_context]. *)
Fixpoint format_context_loop (i : Z) (chunks : list (Chunk F))
    (include_sources : bool) (context_parts : list str) : list str :=
  match chunks with
  | [] => context_parts
  | chunk :: rest =>
      let content := default [] (content chunk) in
      let source := default (lit "Unknown") (source_file chunk) in
      let similarity := default f_zero (similarity chunk) in
      let part :=
        if include_sources
        then lit "[Source " ++ str_of_int i ++ lit ": " ++ source
             ++ lit " (relevance: " ++ f_format2 similarity ++ lit ")]"
             ++ nl ++ content
        else content in
      format_context_loop (i + 1) rest include_sources (context_parts ++ [part])
  end.

Definition format_context (chunks : list (Chunk F)) (include_sources : bool)
    : str :=
  if nonempty_list chunks
  then join (nl ++ nl ++ lit "---" ++ nl ++ nl)
         (format_context_loop 1 chunks include_sources [])
  else lit "No relevant information found in the knowledge base.".

Record SourceCitation := {
cite_source_file : str;
cite_chunk_index : Z;
cite_similarity : F;
preview : str
}.

Definition get_sources (chunks : list (Chunk F)) : list SourceCitation :=
  map (fun chunk =>
         {| cite_source_file := default (lit "Unknown") (source_file chunk);
            cite_chunk_index := default 0 (chunk_index chunk);
            cite_similarity := f_round3 (default f_zero (similarity chunk));
            preview := take 100 (default [] (content chunk)) ++ lit "..." |})
      chunks.

(** The block the specification gives for chunk number [i]. *)
Definition source_block (i : Z) (chunk : Chunk F) : str :=
  lit "[Source " ++ str_of_int i ++ lit ": "
  ++ default (lit "Unknown") (source_file chunk)
  ++ lit " (relevance: " ++ f_format2 (default f_zero (similarity chunk))
  ++ lit ")]" ++ nl ++ default [] (content chunk).

(** The citation the specification gives for a chunk, with the preview
    that [get_sources] builds: the first 100 characters and an ellipsis. *)
Definition citation (chunk : Chunk F) : SourceCitation :=
  {| cite_source_file := default (lit "Unknown") (source_file chunk);
     cite_chunk_index := default 0 (chunk_index chunk);
     cite_similarity := f_round3 (default f_zero (similarity chunk));
     preview := take 100 (default [] (content chunk)) ++ lit "..." |}.

(** The preview in the words of the data model: the first 100 characters,
    and an ellipsis only if something was cut off. *)
Definition preview_if_truncated (content : str) : str :=
  if 100 <? len content
  then take 100 content ++ lit "..."
  else content.

(** The similarity the filter of [retrieve_relevant_chunks] looks at. *)
Definition similarity_of (r : Chunk F) : F := default f_zero (similarity r).

End Formatting.
Arguments SourceCitation F : clear implicits.

End Retrieval.

(** ** Pipeline ([src/rag/pipeline.py]) *)

Module QueryResult.
Record t (F : Type) := {
query : str;
answer : str;
sources : list (Retrieval.SourceCitation F);
context_used : str;
chunks_retrieved : Z
}.
Arguments query {F}.
Arguments answer {F}.
Arguments sources {F}.
Arguments context_used {F}.
Arguments chunks_retrieved {F}.
End QueryResult.

(** The dicts that [query_stream] yields, by their ["type"]. *)
Inductive event (F : Type) :=
| EvError (content : str)
| EvSources (content : list (Retrieval.SourceCitation F))
| EvAnswerChunk (content : str)
| EvDone.
Arguments EvError {F}.
Arguments EvSources {F}.
Arguments EvAnswerChunk {F}.
Arguments EvDone {F}.

Module CDSSPipeline.
Import Retrieval.

Record t (F : Type) := {
top_k : Z;
temperature : F;
min_similarity : F
}.
Arguments top_k {F}.
Arguments temperature {F}.
Arguments min_similarity {F}.

Section WithServices.
Context {F : Type} `{PyFloat F} (st : Settings) (svc : Services F).

(** [__init__]. *)
Definition init (top_k : option Z) (temperature min_similarity : F) : t F :=
  {| top_k := or_int top_k (TOP_K_RESULTS st);
     temperature := temperature;
     min_similarity := min_similarity |}.

Definition fallback_answer : str :=
  lit "I couldn't find relevant information in my knowledge base to answer this question. Please try rephrasing or consult with a healthcare professional.".

Definition query (self : t F) (question : str) (source_filter : option str)
    : M F (QueryResult.t F) :=
  chunks ← retrieve_relevant_chunks st svc question (Some (top_k self))
             source_filter (min_similarity self);
  if negb (nonempty_list chunks) then
    mret {| QueryResult.query := question;
            QueryResult.answer := fallback_answer;
            QueryResult.sources := [];
            QueryResult.context_used := [];
            QueryResult.chunks_retrieved := 0 |}
  else
    let context := format_context chunks true in
    let sources := get_sources chunks in
    answer ← perform (GenerateAnswer question context (temperature self))
               (generate_answer svc question context (temperature self));
    mret {| QueryResult.query := question;
            QueryResult.answer := answer;
            QueryResult.sources := sources;
            QueryResult.context_used := context;
            QueryResult.chunks_retrieved := len chunks |}.

(** What [query_stream] has retrieved and assembled when it reaches its
    first [yield]: the chunks, the context and the sources. The call to
    [retrieve_relevant_chunks] leaves [min_similarity] at its default
    [0.0]. *)
Definition query_stream_retrieval (self : t F) (question : str)
    (source_filter : option str) : M F (list (Chunk F)) :=
  retrieve_relevant_chunks st svc question (Some (top_k self))
    source_filter f_zero.

(** The generator run to its end: the calls made, the events yielded in
    order, and the exception that ended the run, if any. *)
Definition query_stream (self : t F) (question : str)
    (source_filter : option str)
    : list (call F) * (list (event F) * option exn) :=
  match query_stream_retrieval self question source_filter with
  | (log, inl e) => (log, ([], Some e))
  | (log, inr chunks) =>
      if negb (nonempty_list chunks) then
        (log, ([EvError (lit "No relevant information found.")], None))
      else
        let context := format_context chunks true in
        let sources := get_sources chunks in
        let '(fragments, failure) :=
          generate_answer_stream svc question context (temperature self) in
        (log ++ [GenerateAnswerStream question context (temperature self)],
         (EvSources sources :: map EvAnswerChunk fragments
          ++ match failure with None => [EvDone] | Some _ => [] end,
          failure))
  end.

(** The content of the [sources] event of a run, if it has one. *)
Fixpoint stream_sources (events : list (event F))
    : option (list (SourceCitation F)) :=
  match events with
  | EvSources c :: _ => Some c
  | _ :: rest => stream_sources rest
  | [] => None
  end.

End WithServices.
End CDSSPipeline.

(** ** A concrete float and a small index, for examples

    Finite floats read as the rationals they denote: comparison is exact,
    and both roundings go to the nearest decimal, ties to even. *)

Module QFloat.
Import Retrieval.

Definition round_half_even (q : Q) : Z :=
  let fl := Qfloor q in
  match (q - inject_Z fl ?= 1 # 2)%Q with
  | Lt => fl
  | Gt => fl + 1
  | Eq => if Z.even fl then fl else fl + 1
  end.

Definition round3 (q : Q) : Q :=
  Qred (Qmake (round_half_even (q * 1000)) 1000).

Definition two_digits (n : Z) : str :=
  if n <? 10 then lit "0" ++ str_of_int n else str_of_int n.

Definition format2 (q : Q) : str :=
  let n := round_half_even (Qabs q * 100) in
  (if Qle_bool 0 q then [] else lit "-")
  ++ str_of_int (n / 100) ++ lit "." ++ two_digits (n mod 100).

#[global] Instance q_float : PyFloat Q := {|
  f_zero := 0%Q;
  f_ge x y := Qle_bool y x;
  f_gt x y := negb (Qle_bool x y);
  f_round3 := round3;
  f_format2 := format2;
  f_gt_zero_zero := eq_refl
|}.

End QFloat.

Module Demo.
Import QFloat.

Definition row (source : string) (index : Z) (sim : Q) (text : string)
    : Chunk Q :=
  {| content := Some (lit text);
     source_file := Some (lit source);
     chunk_index := Some index;
     similarity := Some sim |}.

Definition rows : list (Chunk Q) :=
  [ row "acmg.pdf" 0 (87 # 100) "Pathogenic variants cause disease.";
    row "acmg.pdf" 3 (3 # 10) "Benign variants are common.";
    row "brca.pdf" 1 (6 # 10) "BRCA1 is a tumour suppressor gene." ].

(** An index that answers every query with the first [top_k] of [rows],
    and a completion service with a fixed answer. *)
Definition services (index : list (Chunk Q)) : Services Q :=
  {| embed_text := fun _ => inr [1%Q; 0%Q];
     search_similar := fun _ top_k _ => inr (take (Z.to_nat top_k) index);
     generate_answer := fun _ _ _ => inr (lit "See [Source 1].");
     generate_answer_stream := fun _ _ _ =>
       ([lit "See "; lit "[Source 1]."], None) |}.

End Demo.

(** ** The rest of the chunker: metadata, estimates and views of the chunks *)

Module ChunkerMeta.
Import Chunker.

(** The dict that [chunk_with_metadata] builds for one chunk. *)
Record ChunkRecord := {
rec_content : str;
rec_source_file : str;
rec_chunk_index : Z;
rec_word_count : Z;
rec_char_count : Z
}.

(** [chunk_with_metadata]: [chunk_text] in its default, sentence-aware
    mode, then one dict per chunk with its position. *)
Definition chunk_with_metadata (st : Settings) (fuel : nat)
    (text source_file : str) (chunk_size chunk_overlap : option Z)
    : option (list ChunkRecord) :=
  chunks ← chunk_text st fuel text chunk_size chunk_overlap true;
  Some (imap (fun i chunk =>
                {| rec_content := chunk;
                   rec_source_file := source_file;
                   rec_chunk_index := Z.of_nat i;
                   rec_word_count := len (split chunk);
                   rec_char_count := len chunk |})
             chunks).

Definition ZeroDivisionError : exn :=
  Raised (lit "integer division or modulo by zero").

(** [estimate_chunks]; [//] is floor division, which raises on a zero
    divisor. *)
Definition estimate_chunks (st : Settings) (text : str)
    (chunk_size : option Z) : result Z :=
  let chunk_size := or_int chunk_size (CHUNK_SIZE st) in
  let word_count := len (split text) in
  if chunk_size / 2 =? 0
  then inl ZeroDivisionError
  else inr (Z.max 1 (word_count / (chunk_size / 2))).

(** The number of words in a list of sentences. *)
Definition total_words (sentences : list str) : Z :=
  len (concat (map split sentences)).

(** The [k]-th window of word-count mode: [chunk_size] words starting
    [k * (chunk_size - overlap)] words into the text. *)
Definition window (words : list str) (chunk_size overlap : Z) (k : nat) : str :=
  join (lit " ")
    (slice words (Z.of_nat k * (chunk_size - overlap))
       (Z.of_nat k * (chunk_size - overlap) + chunk_size)).

(** How many windows cover [n] words: one, and then one more for every
    further [chunk_size - overlap] words or part of it. *)
Definition window_count (n chunk_size overlap : Z) : nat :=
  if n <=? 0 then 0%nat
  else if n <=? chunk_size then 1%nat
  else S (Z.to_nat ((n - chunk_size + (chunk_size - overlap) - 1)
                    / (chunk_size - overlap))).

(** The words of the [k]-th chunk of word-count mode that are not
    repeated from the chunk before it. *)
Definition own_words (overlap : Z) (k : nat) (chunk : str) : list str :=
  drop (match k with O => 0%nat | S _ => Z.to_nat overlap end) (split chunk).

(** A word: at least one character, none of them whitespace. *)
Definition is_word (w : str) : Prop :=
  w <> [] /\ forallb nonspace w = true.

(** What the scan knows about the piece it is reading: its last
    character is the previous character of the text, and an empty piece
    does not follow a terminal. *)
Definition scan_ok (prev : option ascii) (piece : str) : Prop :=
  match piece with
  | [] => forall p, prev = Some p -> is_terminal p = false
  | _ => last piece = prev
  end.

(** A string that ends in one of [. ! ?]. *)
Definition ends_terminal (s : str) : bool :=
  match last s with
  | Some c => is_terminal c
  | None => false
  end.

(** The overlap of every chunk stays within the budget and cannot be
    extended: the sentence before the carried ones, if there is one in
    the previous chunk, would exceed it. *)
Fixpoint overlap_maximal (overlap : Z) (previous : list str)
    (ps : list parts) : Prop :=
  match ps with
  | [] => True
  | p :: ps' =>
      total_words (carried p) <= Z.max 0 overlap /\
      (forall front x, previous = front ++ x :: carried p ->
                       overlap < total_words (carried p) + word_count x) /\
      overlap_maximal overlap (sentences_of p) ps'
  end.

End ChunkerMeta.

(** ** Prompt templates ([src/api/prompts.py]) *)

Module Prompts.
Import Retrieval.

(** [a == b] on strings. *)
Fixpoint str_eqb (a b : str) : bool :=
  match a, b with
  | [], [] => true
  | x :: a', y :: b' => Ascii.eqb x y && str_eqb a' b'
  | _, _ => false
  end.

(** The double quote of the source's templates. *)
Definition dq : str := ["034"%char].

(** [RAG_PROMPT_TEMPLATE.format(context=context, query=query)]. *)
Definition RAG_PROMPT_TEMPLATE (context query : str) : str :=
  lit "Based on the following clinical guidelines and evidence, answer the user's question."
  ++ nl ++ nl ++ lit "CONTEXT FROM KNOWLEDGE BASE:" ++ nl
  ++ context ++ nl ++ nl ++ lit "---" ++ nl ++ nl
  ++ lit "USER QUESTION: " ++ query ++ nl ++ nl
  ++ lit "Provide a comprehensive answer based ONLY on the context above. Cite sources using [Source X] format.".

(** [NO_CONTEXT_PROMPT.format(query=query)]. *)
Definition NO_CONTEXT_PROMPT (query : str) : str :=
  lit "I apologize, but I couldn't find relevant information in my knowledge base to answer your question about: "
  ++ dq ++ query ++ dq ++ nl ++ nl
  ++ lit "This could mean:" ++ nl
  ++ lit "1. The topic isn't covered in the currently loaded clinical guidelines" ++ nl
  ++ lit "2. The question may need to be rephrased" ++ nl
  ++ lit "3. Additional guidelines may need to be ingested" ++ nl ++ nl
  ++ lit "Please consult with a qualified healthcare professional or try rephrasing your question.".

Definition build_rag_prompt (query context : str) : str :=
  if not_str context
     || str_eqb context
          (lit "No relevant information found in the knowledge base.")
  then NO_CONTEXT_PROMPT query
  else RAG_PROMPT_TEMPLATE context query.

(** The loop [for q, a in previous_qa[-3:]] of [build_followup_prompt]. *)
Fixpoint history_loop (exchanges : list (str * str))
    (history_parts : list str) : list str :=
  match exchanges with
  | [] => history_parts
  | (q, a) :: rest =>
      history_loop rest
        (history_parts ++ [lit "Q: " ++ q ++ nl ++ lit "A: " ++ a])
  end.

Definition build_followup_prompt (query context : str)
    (previous_qa : list (str * str)) : str :=
  let history :=
    if nonempty_list previous_qa
    then lit "PREVIOUS CONVERSATION:" ++ nl
         ++ join (nl ++ nl)
              (history_loop (slice previous_qa (-3) (len previous_qa)) [])
         ++ nl ++ nl ++ lit "---" ++ nl ++ nl
    else [] in
  history
  ++ lit "Based on the following context, answer the follow-up question."
  ++ nl ++ nl ++ lit "CONTEXT:" ++ nl ++ context ++ nl ++ nl
  ++ lit "---" ++ nl ++ nl ++ lit "FOLLOW-UP QUESTION: " ++ query
  ++ nl ++ nl
  ++ lit "Answer based on the context. Reference previous answers if relevant.".

End Prompts.

(** ** The ingest path: embedding chunks and storing them
    ([src/embedding/generate_embeddings.py], [src/embedding/embed_model.py],
    [scripts/ingest_documents.py]) *)

Module Ingest.

(** The dict that [embed_document_chunks] builds for one chunk. *)
Record EmbeddedChunk (F : Type) := {
ec_content : str;
ec_embedding : list F;
ec_source_file : str;
ec_chunk_index : Z;
ec_word_count : Z;
ec_char_count : Z
}.
Arguments ec_content {F}.
Arguments ec_embedding {F}.
Arguments ec_source_file {F}.
Arguments ec_chunk_index {F}.
Arguments ec_word_count {F}.
Arguments ec_char_count {F}.

(** The collaborators of the ingest path: the batch embedder and the
    batch insert of the vector index. *)
Record IngestServices (F : Type) := {
embed_texts : list str -> Z -> result (list (list F));
insert_documents_batch : list (EmbeddedChunk F) -> result Z
}.
Arguments embed_texts {F}.
Arguments insert_documents_batch {F}.

Inductive ingest_call (F : Type) :=
| EmbedTexts (texts : list str) (batch_size : Z)
| InsertDocumentsBatch (documents : list (EmbeddedChunk F)).
Arguments EmbedTexts {F}.
Arguments InsertDocumentsBatch {F}.

Section WithServices.
Context {F : Type} (svc : IngestServices F).

(** The loop [for i, (chunk, embedding) in enumerate(zip(chunks,
    embeddings))] of [embed_document_chunks]. *)
Fixpoint embed_document_chunks_loop (i : Z) (pairs : list (str * list F))
    (source_file : str) (embedded_chunks : list (EmbeddedChunk F))
    : list (EmbeddedChunk F) :=
  match pairs with
  | [] => embedded_chunks
  | (chunk, embedding) :: rest =>
      embed_document_chunks_loop (i + 1) rest source_file
        (embedded_chunks
         ++ [{| ec_content := chunk;
                ec_embedding := embedding;
                ec_source_file := source_file;
                ec_chunk_index := i;
                ec_word_count := len (split chunk);
                ec_char_count := len chunk |}])
  end.

Definition embed_document_chunks (chunks : list str) (source_file : str)
    (batch_size : Z)
    : list (ingest_call F) * result (list (EmbeddedChunk F)) :=
  if negb (nonempty_list chunks) then ([], inr [])
  else
    match embed_texts svc chunks batch_size with
    | inl e => ([EmbedTexts chunks batch_size], inl e)
    | inr embeddings =>
        ([EmbedTexts chunks batch_size],
         inr (embed_document_chunks_loop 0 (zip chunks embeddings)
                source_file []))
    end.

Definition embed_and_store (chunks : list str) (source_file : str)
    (batch_size : Z) : list (ingest_call F) * result Z :=
  match embed_document_chunks chunks source_file batch_size with
  | (log, inl e) => (log, inl e)
  | (log, inr embedded_chunks) =>
      if negb (nonempty_list embedded_chunks) then (log, inr 0)
      else
        (log ++ [InsertDocumentsBatch embedded_chunks],
         insert_documents_batch svc embedded_chunks)
  end.

End WithServices.

(** The module-level [_model] of [embed_model.py] and
    [get_embedding_model]. [load] is what constructing the model gives if
    it is attempted now, and [dimension] what asking the new model for
    its dimension gives; that question comes after [_model] is assigned.
    The result is what the call returns or raises, and the new value of
    [_model]. *)
Definition get_embedding_model {Model : Type} (load : result Model)
    (dimension : Model -> result Z) (_model : option Model)
    : result Model * option Model :=
  match _model with
  | None =>
      match load with
      | inl e => (inl e, None)
      | inr m =>
          match dimension m with
          | inl e => (inl e, Some m)
          | inr _ => (inr m, Some m)
          end
      end
  | Some m => (inr m, Some m)
  end.

(** A sequence of calls to [get_embedding_model], one per element of
    [loads]; what each call returned. *)
Fixpoint get_embedding_model_calls {Model : Type}
    (loads : list (result Model)) (dimension : Model -> result Z)
    (_model : option Model) : list (result Model) :=
  match loads with
  | [] => []
  | load :: rest =>
      let '(r, _model) := get_embedding_model load dimension _model in
      r :: get_embedding_model_calls rest dimension _model
  end.

(** The [stats] dict of [ingest_all_pdfs]; the two early returns build it
    without the ["chunks"] key. *)
Record Stats := {
total : Z;
ingested : Z;
skipped : Z;
chunks : option Z
}.

Section IngestAll.
(** [ingest_pdf] reads and writes the index, so each call is given the
    index state and returns the new one with its count or exception. *)
Context {Path Db : Type} (ingest_pdf : Path -> bool -> Db -> result Z * Db).

(** The loop [for pdf_path in pdf_files] with its [try]/[except]. The
    loop starts from a dict that has the ["chunks"] key, so the update of
    that key always finds it. *)
Fixpoint ingest_all_pdfs_loop (pdf_files : list Path) (reingest : bool)
    (db : Db) (stats : Stats) : Stats * Db :=
  match pdf_files with
  | [] => (stats, db)
  | pdf_path :: rest =>
      let '(outcome, db) := ingest_pdf pdf_path reingest db in
      let stats :=
        match outcome with
        | inr count =>
            if count >? 0
            then {| total := total stats;
                    ingested := ingested stats + 1;
                    skipped := skipped stats;
                    chunks := (fun c => c + count) <$> chunks stats |}
            else {| total := total stats;
                    ingested := ingested stats;
                    skipped := skipped stats + 1;
                    chunks := chunks stats |}
        | inl _ =>
            {| total := total stats;
               ingested := ingested stats;
               skipped := skipped stats + 1;
               chunks := chunks stats |}
        end in
      ingest_all_pdfs_loop rest reingest db stats
  end.

(** [raw_path_exists] is [raw_path.exists()] and [pdf_files] is
    [list(raw_path.glob("*.pdf"))]; the directory that the first branch
    creates is outside the model. *)
Definition ingest_all_pdfs (raw_path_exists : bool) (pdf_files : list Path)
    (reingest : bool) (db : Db) : Stats * Db :=
  if negb raw_path_exists then
    ({| total := 0; ingested := 0; skipped := 0; chunks := None |}, db)
  else if negb (nonempty_list pdf_files) then
    ({| total := 0; ingested := 0; skipped := 0; chunks := None |}, db)
  else
    ingest_all_pdfs_loop pdf_files reingest db
      {| total := len pdf_files; ingested := 0; skipped := 0;
         chunks := Some 0 |}.

End IngestAll.

End Ingest.

(** A completion service that times out: at once when asked for a full
    answer, after one fragment when streaming. *)
Module DemoFailure.
Import QFloat.

Definition timeout : exn := Raised (lit "timed out").

Definition services (index : list (Chunk Q)) : Services Q :=
  {| embed_text := fun _ => inr [1%Q; 0%Q];
     search_similar := fun _ top_k _ => inr (take (Z.to_nat top_k) index);
     generate_answer := fun _ _ _ => inl timeout;
     generate_answer_stream := fun _ _ _ => ([lit "See "], Some timeout) |}.

End DemoFailure.

(** ** Similarity of two embeddings ([src/embedding/embed_model.py])

    [compute_similarity] is arithmetic on numpy [float64] values, which
    are the binary64 floats of the prover: every operation rounds to
    nearest, ties to even, and overflows to an infinity or underflows to
    a zero as the hardware does. *)

Module Similarity.
Import Retrieval.

(** The [ValueError] of [np.dot] on 1-D arrays of [n] and [m] elements. *)
Definition shapes_not_aligned (n m : Z) : exn :=
  Raised (lit "shapes (" ++ str_of_int n ++ lit ",) and (" ++ str_of_int m
          ++ lit ",) not aligned: " ++ str_of_int n ++ lit " (dim 0) != "
          ++ str_of_int m ++ lit " (dim 0)").

(** The inner product of two 1-D arrays of the same length. The products
    are added left to right from [0.0], as numpy's own loop does; an
    optimised back end may add them in another order. *)
Fixpoint dot_loop (tmp : float) (ip1 ip2 : list float) : float :=
  match ip1, ip2 with
  | x :: ip1, y :: ip2 => dot_loop (tmp + x * y) ip1 ip2
  | _, _ => tmp
  end.

(** [np.dot(a, b)] for 1-D arrays. *)
Definition np_dot (a b : list float) : result float :=
  if len a =? len b then inr (dot_loop 0 a b)
  else inl (shapes_not_aligned (len a) (len b)).

(** [np.linalg.norm(x)] for a 1-D array: [sqrt(x.dot(x))]. *)
Definition np_linalg_norm (x : list float) : float :=
  sqrt (dot_loop 0 x x).

Definition compute_similarity (embedding1 embedding2 : list float)
    : result float :=
  let vec1 := embedding1 in
  let vec2 := embedding2 in
  match np_dot vec1 vec2 with
  | inl e => inl e
  | inr dot_product =>
      let norm1 := np_linalg_norm vec1 in
      let norm2 := np_linalg_norm vec2 in
      if (norm1 =? 0)%float || (norm2 =? 0)%float then inr 0%float
      else inr (dot_product / (norm1 * norm2))%float
  end.

(** A vector of zero norm in the words of the specification: every
    component is [0.0] or [-0.0]. *)
Definition zero_vector (v : list float) : bool :=
  forallb (fun x => (x =? 0)%float) v.

(** The range of a cosine, [-1 <= r <= 1]; it holds of no NaN. *)
Definition within_cosine_range (r : float) : bool :=
  ((-1 <=? r) && (r <=? 1))%float.

(** The floats that Python reads [1e200] and [1e-200] as. *)
Definition huge : float := 0x1.4e718d7d7625ap+664%float.
Definition tiny : float := 0x1.87e92154ef7acp-665%float.

End Similarity.

(** ** Facts about the built-ins *)

Module PyFacts.

Lemma split_from_space (a b : str) (w : ascii) (cur : str) :
  isspace w = true ->
  split_from cur (a ++ w :: b) = split_from cur a ++ split_from [] b.
Proof.
  intros Hw. revert cur.
  induction a as [|x a IH]; intros cur; simpl.
  - rewrite Hw. destruct cur; reflexivity.
  - destruct (isspace x); [destruct cur|]; simpl; rewrite IH; reflexivity.
Qed.

(** A non-empty run of whitespace separates words like one space. *)
Lemma split_from_run (ws : str) :
  ws <> [] -> forallb isspace ws = true ->
  forall (a b cur : str),
    split_from cur (a ++ ws ++ b) = split_from cur a ++ split_from [] b.
Proof.
  induction ws as [|w ws IH]; [congruence|].
  intros _ Hws a b cur. simpl in Hws.
  apply andb_true_iff in Hws as [Hw Hws].
  simpl. rewrite split_from_space by exact Hw. f_equal.
  destruct ws as [|w' ws']; [reflexivity|].
  apply (IH ltac:(congruence) Hws [] b []).
Qed.

Lemma split_leading (ws s : str) :
  forallb isspace ws = true -> split (ws ++ s) = split s.
Proof.
  unfold split. induction ws as [|w ws IH]; simpl; [reflexivity|].
  intros H. apply andb_true_iff in H as [Hw Hws]. rewrite Hw. auto.
Qed.

Lemma split_trailing (s ws : str) :
  forallb isspace ws = true -> split (s ++ ws) = split s.
Proof.
  intros H. destruct ws as [|w ws]; [by rewrite app_nil_r|].
  unfold split.
  rewrite <- (app_nil_r (w :: ws)).
  rewrite split_from_run by (congruence || exact H).
  apply app_nil_r.
Qed.

Lemma lstrip_decompose (s : str) :
  exists ws, forallb isspace ws = true /\ s = ws ++ lstrip s.
Proof.
  induction s as [|c s [ws [Hws Hs]]].
  - exists []. split; reflexivity.
  - simpl. destruct (isspace c) eqn:Hc.
    + exists (c :: ws). simpl. rewrite Hc, Hws. split; [reflexivity|].
      f_equal. exact Hs.
    + exists []. split; reflexivity.
Qed.

Lemma rstrip_decompose (s : str) :
  exists ws, forallb isspace ws = true /\ s = rstrip s ++ ws.
Proof.
  destruct (lstrip_decompose (rev s)) as [ws [Hws Hs]].
  exists (rev ws). split.
  - rewrite forallb_forall in *. intros x Hx. apply Hws.
    by apply in_rev.
  - unfold rstrip. rewrite <- rev_app_distr, <- Hs. by rewrite rev_involutive.
Qed.

Lemma split_lstrip (s : str) : split (lstrip s) = split s.
Proof.
  destruct (lstrip_decompose s) as [ws [Hws Hs]].
  rewrite Hs at 2. by rewrite split_leading.
Qed.

Lemma split_rstrip (s : str) : split (rstrip s) = split s.
Proof.
  destruct (rstrip_decompose s) as [ws [Hws Hs]].
  rewrite Hs at 2. by rewrite split_trailing.
Qed.

Lemma split_strip (s : str) : split (strip s) = split s.
Proof. unfold strip. by rewrite split_rstrip, split_lstrip. Qed.

(** A string starting with a non-space character has a word. *)
Lemma split_from_nonempty (s cur : str) :
  cur <> [] -> split_from cur s <> [].
Proof.
  revert cur. induction s as [|c s IH]; intros cur Hcur; simpl.
  - destruct cur; congruence.
  - destruct (isspace c).
    + destruct cur; congruence.
    + apply IH. destruct cur; discriminate.
Qed.

Lemma lstrip_head (s : str) :
  match lstrip s with
  | c :: _ => isspace c = false
  | [] => True
  end.
Proof.
  induction s as [|c s IH]; simpl; [exact I|].
  destruct (isspace c) eqn:Hc; [exact IH | exact Hc].
Qed.

Lemma lstrip_nil_split (s : str) : lstrip s = [] <-> split s = [].
Proof.
  rewrite <- (split_lstrip s).
  pose proof (lstrip_head s) as H.
  destruct (lstrip s) as [|c s']; [done|].
  split; [discriminate|]. unfold split. simpl. rewrite H.
  intros E. by apply split_from_nonempty in E.
Qed.

Lemma split_from_last_nonspace (c : ascii) (a cur : str) :
  isspace c = false -> split_from cur (a ++ [c]) <> [].
Proof.
  intros Hc. revert cur.
  induction a as [|x a IH]; intros cur; simpl.
  - rewrite Hc. by destruct cur.
  - destruct (isspace x); [destruct cur|]; try apply IH; discriminate.
Qed.

(** A string is blank exactly when it has no word. *)
Lemma strip_nil_split (s : str) : strip s = [] <-> split s = [].
Proof.
  rewrite <- (lstrip_nil_split s).
  unfold strip, rstrip. split; [|by intros ->].
  intros H. apply (f_equal (@rev ascii)) in H.
  rewrite rev_involutive in H. simpl in H.
  pose proof (lstrip_head s) as Hc.
  destruct (lstrip s) as [|c s']; [done|].
  apply lstrip_nil_split in H. simpl in H.
  by apply split_from_last_nonspace in H.
Qed.

Lemma isspace_space : isspace " "%char = true.
Proof. reflexivity. Qed.

(** Joining with one space keeps the words of the parts. *)
Lemma split_join (parts : list str) :
  split (join (lit " ") parts) = concat (map split parts).
Proof.
  induction parts as [|p [|q ps] IH].
  - reflexivity.
  - simpl. by rewrite app_nil_r.
  - change (join (lit " ") (p :: q :: ps))
      with (p ++ " "%char :: join (lit " ") (q :: ps)).
    unfold split at 1.
    rewrite split_from_space by apply isspace_space.
    fold (split (join (lit " ") (q :: ps))). rewrite IH. reflexivity.
Qed.

End PyFacts.

(** ** Facts about the chunker *)

Module ChunkerFacts.
Import Chunker PyFacts.

(** *** The sentence splitter only removes whitespace *)

(** A match of [\s+(?=[A-Z])] is a non-empty run of whitespace. *)
Lemma match_spaces_run (s : str) (c : ascii) (rest : str) :
  match_spaces s = Some (c, rest) ->
  exists ws, ws <> [] /\ forallb isspace ws = true /\ s = ws ++ rest.
Proof.
  revert c rest. induction s as [|x s IH]; intros c rest; simpl; [done|].
  destruct (isspace x) eqn:Hx; [|done].
  destruct (match_spaces s) as [[c' rest']|] eqn:Hm.
  - intros [= <- <-].
    destruct (IH _ _ eq_refl) as [ws (_ & Hws & ->)].
    exists (x :: ws). simpl. by rewrite Hx, Hws.
  - destruct (lookahead_upper s); [|done].
    intros [= <- <-]. exists [x]. simpl. by rewrite Hx.
Qed.

Lemma match_at_run (prev : option ascii) (s : str) (c : ascii) (rest : str) :
  match_at prev s = Some (c, rest) ->
  exists ws, ws <> [] /\ forallb isspace ws = true /\ s = ws ++ rest.
Proof.
  unfold match_at. destruct prev as [p|]; [|done].
  destruct (is_terminal p); [apply match_spaces_run | done].
Qed.

Lemma re_split_loop_words (fuel : nat) :
  forall prev piece s,
    (length s < fuel)%nat ->
    concat (map split (re_split_loop fuel prev piece s)) = split (piece ++ s).
Proof.
  induction fuel as [|fuel IH]; intros prev piece s Hlen; [lia|].
  simpl. destruct (match_at prev s) as [[c rest]|] eqn:Hm.
  - destruct (match_at_run _ _ _ _ Hm) as [ws (Hne & Hws & ->)].
    simpl. rewrite IH.
    + unfold split. by rewrite (split_from_run ws Hne Hws).
    + rewrite length_app in Hlen. destruct ws; [done|]. simpl in Hlen. lia.
  - destruct s as [|c s].
    + simpl. by rewrite !app_nil_r.
    + rewrite IH by (simpl in Hlen; lia).
      by rewrite <- app_assoc.
Qed.

(** The fuel of [re_split_loop] does not matter once it exceeds the
    length of the text left. *)
Lemma re_split_loop_fuel (fuel fuel' : nat) :
  forall prev piece s,
    (length s < fuel)%nat -> (length s < fuel')%nat ->
    re_split_loop fuel prev piece s = re_split_loop fuel' prev piece s.
Proof.
  revert fuel'. induction fuel as [|fuel IH]; intros fuel' prev piece s H1 H2;
    [lia|].
  destruct fuel' as [|fuel']; [lia|].
  simpl. destruct (match_at prev s) as [[c rest]|] eqn:Hm.
  - destruct (match_at_run _ _ _ _ Hm) as [ws (Hne & _ & ->)].
    rewrite length_app in H1, H2. destruct ws; [done|]. simpl in H1, H2.
    f_equal. apply IH; lia.
  - destruct s as [|c s]; [done|]. simpl in H1, H2. apply IH; lia.
Qed.

Lemma re_split_words (text : str) :
  concat (map split (re_split text)) = split text.
Proof. unfold re_split. rewrite re_split_loop_words; [done | lia]. Qed.

Lemma clean_sentences_words (pieces : list str) :
  concat (map split (clean_sentences pieces)) = concat (map split pieces).
Proof.
  unfold clean_sentences.
  induction pieces as [|p ps IH]; [done|]. simpl.
  pose proof (proj1 (strip_nil_split p)) as Hn.
  destruct (strip p); simpl.
  - by rewrite Hn.
  - rewrite split_strip. by f_equal.
Qed.

(** The words of the sentences are the words of the text. *)
Lemma sentences_words (text : str) :
  concat (map split (clean_sentences (re_split text))) = split text.
Proof. by rewrite clean_sentences_words, re_split_words. Qed.

(** Every sentence has at least one word. *)
Lemma clean_sentences_nonblank (pieces : list str) :
  Forall (fun s => 0 < word_count s) (clean_sentences pieces).
Proof.
  unfold clean_sentences.
  induction pieces as [|p ps IH]; simpl; [constructor|].
  pose proof (proj2 (strip_nil_split p)) as Hn.
  destruct (strip p); simpl; [exact IH|].
  constructor; [|exact IH].
  unfold word_count. rewrite split_strip.
  destruct (split p); [by specialize (Hn eq_refl)|].
  unfold len. simpl length. lia.
Qed.

(** *** The loops of [chunk_by_sentences] *)

(** The chunks already closed are never touched again. *)
Lemma sentence_loop_parts_acc (sentences : list str) (target_size overlap : Z) :
  forall chunks current n,
    sentence_loop_parts sentences target_size overlap chunks current n
    = chunks ++ sentence_loop_parts sentences target_size overlap [] current n.
Proof.
  induction sentences as [|s rest IH]; intros chunks current n; simpl.
  - destruct (nonempty_list (sentences_of current)); [done | by rewrite app_nil_r].
  - destruct ((n + word_count s >? target_size)
              && nonempty_list (sentences_of current)).
    + destruct (overlap_loop _ _ _ _) as [ov ovn].
      rewrite IH, (IH [current]). by rewrite <- app_assoc.
    + apply IH.
Qed.

(** Forgetting the provenance gives the chunks of the source loop. *)
Lemma sentence_loop_parts_erase (sentences : list str) (target_size overlap : Z) :
  forall chunks current n,
    map chunk_of
      (sentence_loop_parts sentences target_size overlap chunks current n)
    = sentence_loop sentences target_size overlap
        (map chunk_of chunks) (sentences_of current) n.
Proof.
  induction sentences as [|s rest IH]; intros chunks current n; simpl.
  - destruct (nonempty_list (sentences_of current)); [|done].
    by rewrite map_app.
  - destruct ((n + word_count s >? target_size)
              && nonempty_list (sentences_of current)).
    + destruct (overlap_loop _ _ _ _) as [ov ovn].
      rewrite IH. by rewrite map_app.
    + rewrite IH. unfold sentences_of at 1. simpl.
      by rewrite app_assoc.
Qed.

(** The new sentences of the chunks are the sentences, in order. *)
Lemma sentence_loop_parts_fresh (sentences : list str) (target_size overlap : Z) :
  forall current n,
    concat (map fresh
      (sentence_loop_parts sentences target_size overlap [] current n))
    = fresh current ++ sentences.
Proof.
  induction sentences as [|s rest IH]; intros current n; simpl.
  - destruct (sentences_of current) eqn:E; simpl; [|done].
    unfold sentences_of in E. by apply app_eq_nil in E as [_ ->].
  - destruct ((n + word_count s >? target_size)
              && nonempty_list (sentences_of current)).
    + destruct (overlap_loop _ _ _ _) as [ov ovn].
      rewrite sentence_loop_parts_acc. simpl. by rewrite IH.
    + rewrite IH. simpl. by rewrite <- app_assoc.
Qed.

(** The overlap is taken from the end of the chunk just closed. *)
Lemma overlap_loop_suffix (reversed_chunk : list str) (overlap : Z) :
  forall acc n,
    (overlap_loop reversed_chunk overlap acc n).1
      `suffix_of` rev reversed_chunk ++ acc.
Proof.
  induction reversed_chunk as [|s rest IH]; intros acc n; simpl.
  - done.
  - destruct (n + word_count s <=? overlap).
    + rewrite <- app_assoc. apply IH.
    + apply suffix_app_r. done.
Qed.

Lemma sentence_loop_parts_carried (sentences : list str) (target_size overlap : Z) :
  forall previous current n,
    carried current `suffix_of` previous ->
    carried_from previous
      (sentence_loop_parts sentences target_size overlap [] current n).
Proof.
  induction sentences as [|s rest IH]; intros previous current n Hc; simpl.
  - destruct (nonempty_list (sentences_of current)); simpl; done.
  - destruct ((n + word_count s >? target_size)
              && nonempty_list (sentences_of current)).
    + pose proof (overlap_loop_suffix (rev (sentences_of current)) overlap [] 0) as Hs.
      destruct (overlap_loop _ _ _ _) as [ov ovn].
      rewrite sentence_loop_parts_acc. simpl. split; [done|].
      apply IH. simpl in *. by rewrite app_nil_r, rev_involutive in Hs.
    + by apply IH.
Qed.

(** With no overlap budget a sentence that has a word is never kept. *)
Lemma overlap_loop_zero (reversed_chunk : list str) :
  Forall (fun s => 0 < word_count s) reversed_chunk ->
  overlap_loop reversed_chunk 0 [] 0 = ([], 0).
Proof.
  destruct 1 as [|s rest Hs _]; simpl; [done|].
  destruct (0 + word_count s <=? 0) eqn:E; [lia | done].
Qed.

Lemma sentence_loop_parts_zero (sentences : list str) (target_size : Z) :
  forall current n,
    Forall (fun s => 0 < word_count s) (sentences_of current ++ sentences) ->
    carried current = [] ->
    Forall (fun p => carried p = [])
      (sentence_loop_parts sentences target_size 0 [] current n).
Proof.
  induction sentences as [|s rest IH]; intros current n Hall Hc; simpl.
  - destruct (nonempty_list (sentences_of current)); by repeat constructor.
  - apply Forall_app in Hall as [Hcur Hrest].
    destruct ((n + word_count s >? target_size)
              && nonempty_list (sentences_of current)).
    + rewrite overlap_loop_zero by by apply Forall_rev.
      rewrite sentence_loop_parts_acc. constructor; [done|].
      apply IH; [|done]. apply Hrest.
    + apply IH; [|done]. unfold sentences_of in *. simpl.
      rewrite Hc in *. simpl in *. rewrite <- app_assoc. simpl.
      by apply Forall_app.
Qed.

(** Called directly with [overlap = 0], the sentence-aware chunker
    carries nothing from one chunk to the next. *)
Lemma chunk_by_sentences_parts_zero (text : str) (target_size : Z) :
  Forall (fun p => carried p = [])
    (chunk_by_sentences_parts text target_size 0).
Proof.
  apply sentence_loop_parts_zero; [|done].
  apply clean_sentences_nonblank.
Qed.

Lemma concat_split_from (s cur : str) :
  concat (split_from cur s) = cur ++ List.filter nonspace s.
Proof.
  revert cur. induction s as [|c s IH]; intros cur; simpl.
  - destruct cur; simpl; by rewrite ?app_nil_r.
  - unfold nonspace at 1. destruct (isspace c); simpl.
    + destruct cur; simpl; rewrite IH; simpl; by rewrite ?app_nil_r.
    + rewrite IH. by rewrite <- app_assoc.
Qed.

Lemma concat_split (s : str) : concat (split s) = List.filter nonspace s.
Proof. apply concat_split_from. Qed.

Lemma filter_join (parts : list str) :
  List.filter nonspace (join (lit " ") parts)
  = concat (map (List.filter nonspace) parts).
Proof.
  induction parts as [|p [|q ps] IH]; [done | simpl; by rewrite app_nil_r |].
  change (join (lit " ") (p :: q :: ps))
    with (p ++ " "%char :: join (lit " ") (q :: ps)).
  rewrite List.filter_app.
  change (List.filter nonspace (" "%char :: join (lit " ") (q :: ps)))
    with (List.filter nonspace (join (lit " ") (q :: ps))).
  by rewrite IH.
Qed.

Lemma filter_concat (ss : list str) :
  List.filter nonspace (concat ss) = concat (map (List.filter nonspace) ss).
Proof.
  induction ss as [|x ss IH]; [done|].
  simpl. by rewrite List.filter_app, IH.
Qed.

Lemma concat_map_concat {A B} (f : A -> list B) (ls : list (list A)) :
  concat (map f (concat ls)) = concat (map (fun l => concat (map f l)) ls).
Proof.
  induction ls as [|l ls IH]; [done|].
  simpl. by rewrite map_app, concat_app, IH.
Qed.

(** *** The word-count loop *)

(** Once [start] is at or before the first word, with more words than a
    window holds and an overlap that eats the whole window, the loop
    never leaves. *)
Lemma chunk_by_words_loop_stuck (fuel : nat) (words : list str)
    (chunk_size overlap : Z) :
  0 < chunk_size -> chunk_size <= overlap -> chunk_size < len words ->
  forall start chunks,
    start <= 0 ->
    chunk_by_words_loop fuel words chunk_size overlap start chunks = None.
Proof.
  intros Hsize Hov Hlen.
  induction fuel as [|fuel IH]; intros start chunks Hstart; simpl; [done|].
  destruct (start <? len words) eqn:E1; [|lia].
  destruct (start + chunk_size - overlap >=? len words - overlap) eqn:E2;
    [lia|].
  apply IH. lia.
Qed.

(** In the expected regime the loop returns: every iteration moves
    [start] forward, so as many iterations as there are words (and one
    more) are enough. *)
Lemma chunk_by_words_loop_returns (fuel : nat) (words : list str)
    (chunk_size overlap : Z) :
  overlap < chunk_size ->
  forall start chunks,
    (0 < fuel)%nat -> len words - start < Z.of_nat fuel ->
    is_Some (chunk_by_words_loop fuel words chunk_size overlap start chunks).
Proof.
  intros Hov.
  induction fuel as [|fuel IH]; intros start chunks Hpos Hfuel; simpl;
    [lia|].
  destruct (start <? len words) eqn:E1; [|done].
  destruct (start + chunk_size - overlap >=? len words - overlap);
    [done|].
  apply IH; lia.
Qed.

Lemma chunk_by_words_stuck (text : str) (chunk_size overlap : Z) :
  0 < chunk_size -> chunk_size <= overlap -> chunk_size < len (split text) ->
  forall fuel, chunk_by_words fuel text chunk_size overlap = None.
Proof.
  intros Hsize Hov Hlen fuel. by apply chunk_by_words_loop_stuck.
Qed.

(** With at most one window of words the loop does return, whatever the
    overlap: the first window already reaches the end. *)
Lemma chunk_by_words_one_window (text : str) (chunk_size overlap : Z) :
  0 < len (split text) <= chunk_size ->
  chunk_by_words 1 text chunk_size overlap
  = Some [join (lit " ") (slice (split text) 0 chunk_size)].
Proof.
  intros Hlen. unfold chunk_by_words. simpl.
  destruct (0 <? len (split text)) eqn:E1; [|lia].
  destruct (0 + chunk_size - overlap >=? len (split text) - overlap) eqn:E2;
    [done | lia].
Qed.

Lemma chunk_by_words_returns (text : str) (chunk_size overlap : Z) :
  overlap < chunk_size ->
  is_Some (chunk_by_words (S (length (split text))) text chunk_size overlap).
Proof.
  intros H. apply chunk_by_words_loop_returns; [done | lia |].
  unfold len. lia.
Qed.

(** Every chunk has a sentence of its own. *)
Lemma sentence_loop_parts_has_fresh (sentences : list str)
    (target_size overlap : Z) :
  forall current n,
    fresh current <> [] \/ carried current = [] ->
    Forall (fun p => fresh p <> [])
      (sentence_loop_parts sentences target_size overlap [] current n).
Proof.
  assert (Hcur : forall current : parts,
             fresh current <> [] \/ carried current = [] ->
             nonempty_list (sentences_of current) = true ->
             fresh current <> []).
  { intros [c f] [Hf | Hc] Hne; simpl in *; [done|].
    subst c. by destruct f. }
  induction sentences as [|s rest IH]; intros current n Hinv; simpl.
  - destruct (nonempty_list (sentences_of current)) eqn:E; [|done].
    constructor; [by apply Hcur | done].
  - destruct (n + word_count s >? target_size); simpl.
    + destruct (nonempty_list (sentences_of current)) eqn:E.
      * destruct (overlap_loop _ _ _ _) as [ov ovn].
        rewrite sentence_loop_parts_acc. constructor; [by apply Hcur|].
        apply IH. by left.
      * apply IH. left. simpl. by destruct (fresh current).
    + apply IH. left. simpl. by destruct (fresh current).
Qed.

(** A chunk is its carried sentences, a space if there are any, and its
    own sentences. *)
Lemma join_app (sep : str) (a b : list str) :
  b <> [] ->
  join sep (a ++ b)
  = join sep a ++ (if nonempty_list a then sep else []) ++ join sep b.
Proof.
  intros Hb. induction a as [|x [|y a] IH].
  - reflexivity.
  - simpl. destruct b; [done | reflexivity].
  - change (join sep ((x :: y :: a) ++ b))
      with (x ++ sep ++ join sep ((y :: a) ++ b)).
    rewrite IH. simpl. by rewrite <- !app_assoc.
Qed.

(** *** From the sentences back to the text *)

Lemma concat_concat {A} (lls : list (list (list A))) :
  concat (concat lls) = concat (map (@concat A) lls).
Proof.
  induction lls as [|ll lls IH]; [done|].
  simpl. by rewrite concat_app, IH.
Qed.

Lemma fresh_chunks_words (ps : list parts) :
  concat (map split (fresh_chunks ps)) = concat (map split (concat (map fresh ps))).
Proof.
  unfold fresh_chunks. rewrite concat_map_concat, !map_map.
  f_equal. apply map_ext. intros p. apply split_join.
Qed.

Lemma fresh_chunks_nonspace (ps : list parts) :
  concat (map (List.filter nonspace) (fresh_chunks ps))
  = concat (map (List.filter nonspace) (concat (map fresh ps))).
Proof.
  unfold fresh_chunks. rewrite concat_map_concat, !map_map.
  f_equal. apply map_ext. intros p. apply filter_join.
Qed.

Lemma chunk_by_sentences_parts_fresh (text : str) (target_size overlap : Z) :
  concat (map fresh (chunk_by_sentences_parts text target_size overlap))
  = clean_sentences (re_split text).
Proof. apply sentence_loop_parts_fresh. Qed.

Lemma chunk_by_sentences_parts_erase (text : str) (target_size overlap : Z) :
  map chunk_of (chunk_by_sentences_parts text target_size overlap)
  = chunk_by_sentences text target_size overlap.
Proof.
  unfold chunk_by_sentences, chunk_by_sentences_parts.
  pose proof (sentences_words text) as Hw.
  destruct (clean_sentences (re_split text)) as [|s ss] eqn:E.
  - simpl in *. symmetry in Hw. apply strip_nil_split in Hw. by rewrite Hw.
  - rewrite sentence_loop_parts_erase. reflexivity.
Qed.

(** A text that is not blank goes to the mode asked for, with the sizes
    [or_int] picks. *)
Lemma chunk_text_unfold (st : Settings) (fuel : nat) (text : str)
    (chunk_size chunk_overlap : option Z) (respect_sentences : bool) :
  chunk_text st fuel text chunk_size chunk_overlap respect_sentences
  = if not_str text || not_str (strip text) then Some []
    else if respect_sentences
         then Some (chunk_by_sentences text
                      (or_int chunk_size (CHUNK_SIZE st))
                      (or_int chunk_overlap (CHUNK_OVERLAP st)))
         else chunk_by_words fuel text
                (or_int chunk_size (CHUNK_SIZE st))
                (or_int chunk_overlap (CHUNK_OVERLAP st)).
Proof. reflexivity. Qed.

Lemma or_int_default (d : Z) : or_int (Some d) d = d.
Proof. simpl. destruct (d =? 0) eqn:E; [lia | done]. Qed.

End ChunkerFacts.


(** ** The chunker against its specification *)

Module ChunkerSpec.
Import Chunker PyFacts ChunkerFacts.

(** C1. Word-count mode with [overlap >= target_size] is claimed to
    terminate. It does not: on the three words "a b c" with a window of 2
    and an overlap of 2 the loop of [chunk_by_words] is still running
    after any number of iterations, both called directly and through
    [chunk_text] with [respect_sentences = False]. *)
Theorem chunk_by_words_full_overlap_never_returns :
  forall fuel : nat,
    chunk_by_words fuel (lit "a b c") 2 2 = None /\
    chunk_text default_settings fuel (lit "a b c") (Some 2) (Some 2) false
    = None.
Proof.
  intros fuel.
  assert (Hw : chunk_by_words fuel (lit "a b c") 2 2 = None).
  { apply chunk_by_words_loop_stuck; try lia. by vm_compute. }
  split; [exact Hw|]. rewrite chunk_text_unfold. exact Hw.
Qed.

(** C3. For a non-empty text and [0 < overlap < target_size], the chunks
    of sentence-aware chunking, each without the sentences it carries over
    from the chunk before it, give back the text up to whitespace: put
    together they have the words of the text, and the same characters once
    whitespace is deleted. The carried sentences of a chunk are a suffix
    of the sentences of the previous chunk, the first chunk carries none,
    and every chunk is its carried sentences followed by its own. *)
Theorem chunk_by_sentences_reconstructs (text : str) (target_size overlap : Z) :
  text <> [] -> 0 < target_size -> 0 < overlap -> overlap < target_size ->
  let ps := chunk_by_sentences_parts text target_size overlap in
  map chunk_of ps = chunk_by_sentences text target_size overlap /\
  carried_from [] ps /\
  Forall (fun p =>
            chunk_of p
            = join (lit " ") (carried p)
              ++ (if nonempty_list (carried p) then lit " " else [])
              ++ join (lit " ") (fresh p)) ps /\
  normalize_ws (join (lit " ") (fresh_chunks ps)) = normalize_ws text /\
  List.filter nonspace (concat (fresh_chunks ps)) = List.filter nonspace text.
Proof.
  intros _ _ _ _ ps. subst ps.
  split; [apply chunk_by_sentences_parts_erase|].
  split; [by apply sentence_loop_parts_carried|].
  split.
  { eapply Forall_impl.
    - apply sentence_loop_parts_has_fresh. by right.
    - intros p Hp. by apply join_app. }
  split.
  - unfold normalize_ws. f_equal.
    rewrite split_join, fresh_chunks_words, chunk_by_sentences_parts_fresh.
    apply sentences_words.
  - rewrite filter_concat, fresh_chunks_nonspace,
      chunk_by_sentences_parts_fresh.
    rewrite <- concat_split, <- sentences_words, concat_concat, map_map.
    f_equal. apply map_ext. intros s. symmetry. apply concat_split.
Qed.

Lemma chunk_by_sentences_reconstructs_witness :
  let text := lit "Aa bb. Cc dd.  Ee ff." in
  let ps := chunk_by_sentences_parts text 3 2 in
  map chunk_of ps = [lit "Aa bb."; lit "Aa bb. Cc dd."; lit "Cc dd. Ee ff."] /\
  map chunk_of ps = chunk_by_sentences text 3 2 /\
  carried_from [] ps /\
  Forall (fun p =>
            chunk_of p
            = join (lit " ") (carried p)
              ++ (if nonempty_list (carried p) then lit " " else [])
              ++ join (lit " ") (fresh p)) ps /\
  normalize_ws (join (lit " ") (fresh_chunks ps)) = normalize_ws text /\
  List.filter nonspace (concat (fresh_chunks ps)) = List.filter nonspace text.
Proof.
  split; [reflexivity|].
  apply (chunk_by_sentences_reconstructs (lit "Aa bb. Cc dd.  Ee ff.") 3 2);
    [discriminate | lia | lia | lia].
Defined.

(** C4. Through [chunk_text], sentence-aware chunking with
    [chunk_overlap = 0] is claimed to give chunks that share no sentence.
    The argument 0 is replaced by [settings.CHUNK_OVERLAP] (50 by
    default), and the chunks overlap: on "Aa bb. Cc dd. Ee ff." with a
    target of 3 words the second chunk repeats the first and the third
    repeats the second. *)
Theorem chunk_text_zero_overlap_shares_sentences :
  forall fuel : nat,
    let text := lit "Aa bb. Cc dd. Ee ff." in
    chunk_text default_settings fuel text (Some 3) (Some 0) true
    = Some [lit "Aa bb."; lit "Aa bb. Cc dd."; lit "Aa bb. Cc dd. Ee ff."] /\
    map carried
      (chunk_by_sentences_parts text 3
         (or_int (Some 0) (CHUNK_OVERLAP default_settings)))
    = [[]; [lit "Aa bb."]; [lit "Aa bb."; lit "Cc dd."]].
Proof. intros fuel. split; reflexivity. Qed.

(** C5. [chunk_text] never chunks with a falsy size or overlap: [None]
    and [0] both give way to the configured default, so the call behaves
    exactly as if the default had been passed, and 0 as an overlap is
    out of reach of the caller. *)
Theorem chunk_text_falsy_uses_defaults (st : Settings) (fuel : nat)
    (text : str) (chunk_size chunk_overlap : option Z)
    (respect_sentences : bool) :
  chunk_text st fuel text None chunk_overlap respect_sentences
  = chunk_text st fuel text (Some (CHUNK_SIZE st)) chunk_overlap
      respect_sentences /\
  chunk_text st fuel text (Some 0) chunk_overlap respect_sentences
  = chunk_text st fuel text (Some (CHUNK_SIZE st)) chunk_overlap
      respect_sentences /\
  chunk_text st fuel text chunk_size None respect_sentences
  = chunk_text st fuel text chunk_size (Some (CHUNK_OVERLAP st))
      respect_sentences /\
  chunk_text st fuel text chunk_size (Some 0) respect_sentences
  = chunk_text st fuel text chunk_size (Some (CHUNK_OVERLAP st))
      respect_sentences /\
  chunk_text st fuel text chunk_size (Some 0) respect_sentences
  = if not_str text || not_str (strip text) then Some []
    else if respect_sentences
         then Some (chunk_by_sentences text
                      (or_int chunk_size (CHUNK_SIZE st)) (CHUNK_OVERLAP st))
         else chunk_by_words fuel text
                (or_int chunk_size (CHUNK_SIZE st)) (CHUNK_OVERLAP st).
Proof.
  rewrite !chunk_text_unfold, !or_int_default.
  repeat split; reflexivity.
Qed.

End ChunkerSpec.

(** ** Facts about the retriever and the pipeline *)

Module RetrievalFacts.
Import Retrieval.

Section Facts.
Context {F : Type} `{PyFloat F} (st : Settings) (svc : Services F).

Lemma filter_sublist {A} (f : A -> bool) (l : list A) :
  List.filter f l `sublist_of` l.
Proof.
  induction l as [|x l IH]; simpl; [constructor|].
  destruct (f x); by constructor.
Qed.

Lemma filter_all_false {A} (f : A -> bool) (l : list A) :
  Forall (fun x => f x = false) l -> List.filter f l = [].
Proof.
  induction 1 as [|x l Hx _ IH]; simpl; [done|]. by rewrite Hx.
Qed.

Lemma filter_Forall {A} (f : A -> bool) (l : list A) :
  Forall (fun x => f x = true) (List.filter f l).
Proof.
  induction l as [|x l IH]; simpl; [constructor|].
  destruct (f x) eqn:E; [by constructor | done].
Qed.

(** What [retrieve_relevant_chunks] does once both collaborators have
    answered. *)
Lemma retrieve_relevant_chunks_ok (query : str) (top_k : option Z)
    (source_filter : option str) (min_similarity : F)
    (query_embedding : list F) (results : list (Chunk F)) :
  embed_text svc query = inr query_embedding ->
  search_similar svc query_embedding (or_int top_k (TOP_K_RESULTS st))
    source_filter = inr results ->
  retrieve_relevant_chunks st svc query top_k source_filter min_similarity
  = ([EmbedText query;
      SearchSimilar query_embedding (or_int top_k (TOP_K_RESULTS st))
        source_filter],
     inr (if f_gt min_similarity f_zero
          then List.filter
                 (fun r => f_ge (similarity_of r) min_similarity) results
          else results)).
Proof.
  intros He Hs. unfold retrieve_relevant_chunks, perform.
  rewrite He. simpl. rewrite Hs. reflexivity.
Qed.

(** Retrieval never calls the completion service. *)
Lemma retrieve_relevant_chunks_no_generation (query : str)
    (top_k : option Z) (source_filter : option str) (min_similarity : F) :
  Forall (fun c => is_generation c = false)
    (retrieve_relevant_chunks st svc query top_k source_filter
       min_similarity).1.
Proof.
  unfold retrieve_relevant_chunks, perform.
  destruct (embed_text svc query) as [e|emb]; simpl.
  - by repeat constructor.
  - destruct (search_similar svc emb _ source_filter); simpl;
      by repeat constructor.
Qed.

Lemma format_context_loop_blocks (chunks : list (Chunk F)) :
  forall (i : Z) (context_parts : list str),
    format_context_loop i chunks true context_parts
    = context_parts
      ++ imap (fun k chunk => source_block (i + Z.of_nat k) chunk) chunks.
Proof.
  induction chunks as [|chunk rest IH]; intros i parts; simpl.
  - by rewrite app_nil_r.
  - rewrite IH, <- app_assoc. f_equal. simpl. f_equal.
    + unfold source_block. by rewrite Z.add_0_r.
    + apply imap_ext. intros k x _. simpl. f_equal. lia.
Qed.

End Facts.
End RetrievalFacts.

(** ** The retriever and the context assembler against their specification *)

Module RetrievalSpec.
Import Retrieval RetrievalFacts.

Section Spec.
Context {F : Type} `{PyFloat F} (st : Settings) (svc : Services F).

(** C7. With [min_similarity > 0], and the embedder and the index having
    answered, [retrieve_relevant_chunks] returns normally; every chunk it
    returns has similarity [>= min_similarity]; the chunks returned are
    those of the search that reach the threshold, in the order the search
    gave them; and when the index is empty or nothing reaches the
    threshold the result is the empty list, not an error. *)
Theorem retrieve_filters_in_order (query : str) (top_k : option Z)
    (source_filter : option str) (min_similarity : F)
    (query_embedding : list F) (results : list (Chunk F)) :
  f_gt min_similarity f_zero = true ->
  embed_text svc query = inr query_embedding ->
  search_similar svc query_embedding (or_int top_k (TOP_K_RESULTS st))
    source_filter = inr results ->
  exists kept,
    (retrieve_relevant_chunks st svc query top_k source_filter
       min_similarity).2 = inr kept /\
    Forall (fun r => f_ge (similarity_of r) min_similarity = true) kept /\
    kept `sublist_of` results /\
    (forall r, r ∈ results ->
               f_ge (similarity_of r) min_similarity = true -> r ∈ kept) /\
    (Forall (fun r => f_ge (similarity_of r) min_similarity = false) results ->
     kept = []) /\
    (results = [] -> kept = []).
Proof.
  intros Hmin He Hs.
  rewrite (retrieve_relevant_chunks_ok st svc _ _ _ _ _ _ He Hs), Hmin.
  eexists. split; [reflexivity|].
  split; [apply filter_Forall|].
  split; [apply filter_sublist|].
  split.
  - intros r Hr Hge. apply list_elem_of_In, filter_In.
    split; [by apply list_elem_of_In | done].
  - split; [apply filter_all_false | by intros ->].
Qed.

(** C8. [format_context] of no chunks is the sentinel string; of one or
    more chunks it is their blocks, numbered from 1 in input order and
    joined by the separator. *)
Theorem format_context_blocks :
  format_context (F:=F) [] true
  = lit "No relevant information found in the knowledge base." /\
  forall (chunk : Chunk F) (rest : list (Chunk F)),
    format_context (chunk :: rest) true
    = join (nl ++ nl ++ lit "---" ++ nl ++ nl)
        (imap (fun k c => source_block (1 + Z.of_nat k) c) (chunk :: rest)).
Proof.
  split; [reflexivity|]. intros chunk rest.
  unfold format_context. cbn [nonempty_list].
  by rewrite format_context_loop_blocks.
Qed.

(** C9, as the code has it. [get_sources] returns one citation per chunk,
    in the same order, with the similarity rounded to 3 decimals and a
    preview that is the first 100 characters of the content followed by
    an ellipsis, whether or not anything was cut off. *)
Theorem get_sources_one_per_chunk (chunks : list (Chunk F)) :
  length (get_sources chunks) = length chunks /\
  (forall i : nat, get_sources chunks !! i = citation <$> chunks !! i).
Proof.
  unfold get_sources. split; [apply length_map|].
  intros i. apply list_lookup_fmap.
Qed.

End Spec.

(** C7 on the example index: a threshold of 0.5 keeps the first and the
    third row. *)
Lemma retrieve_filters_in_order_witness :
  exists kept,
    (retrieve_relevant_chunks default_settings (Demo.services Demo.rows)
       (lit "variants") None None (1 # 2)%Q).2 = inr kept /\
    Forall (fun r => f_ge (similarity_of r) (1 # 2)%Q = true) kept /\
    kept `sublist_of` Demo.rows /\
    (forall r, r ∈ Demo.rows ->
               f_ge (similarity_of r) (1 # 2)%Q = true -> r ∈ kept) /\
    (Forall (fun r => f_ge (similarity_of r) (1 # 2)%Q = false) Demo.rows ->
     kept = []) /\
    (Demo.rows = [] -> kept = []).
Proof.
  apply (retrieve_filters_in_order default_settings (Demo.services Demo.rows)
           (lit "variants") None None (1 # 2)%Q [1%Q; 0%Q] Demo.rows);
    reflexivity.
Defined.

(** C9 as claimed: the ellipsis only after a content that was cut off.
    A content of six characters gets one all the same. *)
Lemma get_sources_preview_counterexample :
  map preview (get_sources [Demo.row "acmg.pdf" 0 (87 # 100) "Short."])
  <> [preview_if_truncated (lit "Short.")].
Proof. vm_compute. discriminate. Qed.

End RetrievalSpec.

(** ** The pipeline against its specification *)

Module PipelineSpec.
Import Retrieval RetrievalFacts CDSSPipeline.

Section Spec.
Context {F : Type} `{PyFloat F} (st : Settings) (svc : Services F).

(** Without a threshold the two paths retrieve alike. *)
Lemma query_stream_retrieval_no_threshold (self : CDSSPipeline.t F)
    (question : str) (source_filter : option str) :
  f_gt (min_similarity self) f_zero = false ->
  query_stream_retrieval st svc self question source_filter
  = retrieve_relevant_chunks st svc question (Some (top_k self))
      source_filter (min_similarity self).
Proof.
  intros Hmin. unfold query_stream_retrieval, retrieve_relevant_chunks.
  by rewrite Hmin, f_gt_zero_zero.
Qed.

(** C6. When retrieval returns no chunks, [query] returns normally with
    the fixed fallback answer, no sources, an empty context and a count of
    0; the calls made are those of the retrieval, and none of them is a
    generation call. *)
Theorem query_empty_retrieval_fallback (self : CDSSPipeline.t F)
    (question : str) (source_filter : option str) (log : list (call F)) :
  retrieve_relevant_chunks st svc question (Some (top_k self)) source_filter
    (min_similarity self) = (log, inr []) ->
  query st svc self question source_filter
  = (log, inr {| QueryResult.query := question;
                 QueryResult.answer := fallback_answer;
                 QueryResult.sources := [];
                 QueryResult.context_used := [];
                 QueryResult.chunks_retrieved := 0 |}) /\
  Forall (fun c => is_generation c = false) log.
Proof.
  intros Hr. split.
  - unfold query. rewrite Hr. simpl. by rewrite app_nil_r.
  - pose proof (retrieve_relevant_chunks_no_generation st svc question
                  (Some (top_k self)) source_filter (min_similarity self))
      as Hlog.
    by rewrite Hr in Hlog.
Qed.

End Spec.

(** C6 on an empty index. *)
Lemma query_empty_retrieval_fallback_witness :
  let self := init default_settings None (3 # 10)%Q 0%Q in
  let log := [EmbedText (lit "unrelated nonsense query");
              SearchSimilar [1%Q; 0%Q] 5 None] in
  query default_settings (Demo.services []) self
    (lit "unrelated nonsense query") None
  = (log, inr {| QueryResult.query := lit "unrelated nonsense query";
                 QueryResult.answer := fallback_answer;
                 QueryResult.sources := [];
                 QueryResult.context_used := [];
                 QueryResult.chunks_retrieved := 0 |}) /\
  Forall (fun c => is_generation c = false) log.
Proof.
  apply (query_empty_retrieval_fallback default_settings (Demo.services [])
           (init default_settings None (3 # 10)%Q 0%Q)
           (lit "unrelated nonsense query") None).
  reflexivity.
Defined.

(** C2. The streaming path is claimed to retrieve and assemble what
    [query] does. [query] passes the pipeline's [min_similarity] to the
    retriever and [query_stream] does not: with a threshold of 0.5 and an
    index whose only row has similarity 0.3, [query] retrieves nothing and
    answers with the fallback, while [query_stream] retrieves the row,
    emits it as a source and streams an answer. *)
Theorem query_stream_ignores_min_similarity :
  let low := Demo.row "acmg.pdf" 3 (3 # 10) "Benign variants are common." in
  let svc := Demo.services [low] in
  let self := init default_settings None (3 # 10)%Q (1 # 2)%Q in
  let question := lit "What is a benign variant?" in
  (retrieve_relevant_chunks default_settings svc question
     (Some (top_k self)) None (min_similarity self)).2 = inr [] /\
  (query_stream_retrieval default_settings svc self question None).2
  = inr [low] /\
  (query default_settings svc self question None).2
  = inr {| QueryResult.query := question;
           QueryResult.answer := fallback_answer;
           QueryResult.sources := [];
           QueryResult.context_used := [];
           QueryResult.chunks_retrieved := 0 |} /\
  (query_stream default_settings svc self question None).2
  = ([EvSources (get_sources [low]);
      EvAnswerChunk (lit "See "); EvAnswerChunk (lit "[Source 1].");
      EvDone], None).
Proof. repeat split; reflexivity. Qed.

End PipelineSpec.

(** ** Facts about binary64 arithmetic and the similarity *)

Module FloatFacts.

(** A number of [d] binary digits lies in [[2^(d-1), 2^d)]. *)
Lemma digits2_pos_lower (m : positive) :
  2 ^ (Z.pos (digits2_pos m) - 1) <= Z.pos m.
Proof.
  induction m as [m IH|m IH|]; simpl digits2_pos.
  - rewrite Pos2Z.inj_succ.
    replace (Z.succ (Z.pos (digits2_pos m)) - 1)
      with (Z.succ (Z.pos (digits2_pos m) - 1)) by lia.
    rewrite Z.pow_succ_r by lia. lia.
  - rewrite Pos2Z.inj_succ.
    replace (Z.succ (Z.pos (digits2_pos m)) - 1)
      with (Z.succ (Z.pos (digits2_pos m) - 1)) by lia.
    rewrite Z.pow_succ_r by lia. lia.
  - simpl. lia.
Qed.

Lemma digits2_pos_upper (m : positive) :
  Z.pos m < 2 ^ Z.pos (digits2_pos m).
Proof.
  induction m as [m IH|m IH|]; simpl digits2_pos.
  - rewrite Pos2Z.inj_succ, Z.pow_succ_r by lia. lia.
  - rewrite Pos2Z.inj_succ, Z.pow_succ_r by lia. lia.
  - simpl. lia.
Qed.

(** Shifting right halves the mantissa, rounding down. *)
Lemma shr_1_m (r : shr_record) :
  0 <= shr_m r -> shr_m (shr_1 r) = shr_m r / 2.
Proof.
  destruct r as [m r s]. cbn [shr_m shr_1]. intros Hm.
  destruct m as [|[p|p|]|p]; cbn [shr_m]; try lia; try done.
  - apply Z.div_unique with 1; lia.
  - apply Z.div_unique with 0; lia.
Qed.

Lemma iter_shr_1_m (p : positive) :
  forall r : shr_record,
    0 <= shr_m r ->
    shr_m (SpecFloat.iter_pos shr_1 p r) = shr_m r / 2 ^ Z.pos p.
Proof.
  assert (Hnn : forall r, 0 <= shr_m r -> 0 <= shr_m (shr_1 r)).
  { intros r Hr. rewrite shr_1_m by done. apply Z.div_pos; lia. }
  assert (Hpow : forall q : positive, 0 < 2 ^ Z.pos q) by (intros; lia).
  induction p as [p IH|p IH|]; intros r Hr; simpl SpecFloat.iter_pos.
  - assert (H1 : 0 <= shr_m (SpecFloat.iter_pos shr_1 p (shr_1 r))).
    { rewrite IH by auto. apply Z.div_pos; auto. }
    rewrite IH, IH, shr_1_m by auto.
    pose proof (Hpow p).
    rewrite !Z.div_div by lia.
    assert (Hx : 2 ^ Z.pos p~1 = 2 * 2 ^ Z.pos p * 2 ^ Z.pos p).
    { rewrite <- Z.mul_assoc, <- Z.pow_add_r, <- Z.pow_succ_r by lia.
      f_equal. lia. }
    rewrite Hx. f_equal. ring.
  - assert (H1 : 0 <= shr_m (SpecFloat.iter_pos shr_1 p r)).
    { rewrite IH by auto. apply Z.div_pos; auto. }
    rewrite IH, IH by auto. pose proof (Hpow p).
    rewrite Z.div_div by lia.
    assert (Hx : 2 ^ Z.pos p~0 = 2 ^ Z.pos p * 2 ^ Z.pos p).
    { rewrite <- Z.pow_add_r by lia. f_equal. lia. }
    by rewrite Hx.
  - rewrite shr_1_m by done. done.
Qed.

Lemma shr_record_of_loc_m (m : Z) (l : location) :
  shr_m (shr_record_of_loc m l) = m.
Proof. by destruct l as [|[]]. Qed.

(** Bringing a positive mantissa to the format keeps it positive when the
    number is not below the least subnormal, and never lowers the
    exponent. *)
Lemma shr_fexp_pos (m e : Z) (l : location) :
  0 < m -> -1073 <= Zdigits2 m + e ->
  0 < shr_m (shr_fexp prec emax m e l).1 /\
  -1074 <= (shr_fexp prec emax m e l).2 /\
  e <= (shr_fexp prec emax m e l).2.
Proof.
  intros Hm Hd. unfold shr_fexp, shr.
  destruct m as [|m|m]; [lia| |lia]. cbn [Zdigits2] in *.
  pose proof (digits2_pos_lower m) as Hlow.
  set (d := Z.pos (digits2_pos m)) in *.
  assert (Hfexp : fexp prec emax (d + e) = Z.max (d + e - 53) (-1074))
    by reflexivity.
  destruct (fexp prec emax (d + e) - e) as [|p|p] eqn:Hn; cbn [fst snd].
  - rewrite shr_record_of_loc_m. lia.
  - rewrite iter_shr_1_m by (rewrite shr_record_of_loc_m; lia).
    rewrite shr_record_of_loc_m.
    assert (Hp : Z.pos p <= d - 1) by lia.
    assert (H2 : 2 ^ Z.pos p <= Z.pos m).
    { etrans; [|exact Hlow]. apply Z.pow_le_mono_r; lia. }
    split; [|lia]. apply Z.div_str_pos. lia.
  - rewrite shr_record_of_loc_m. lia.
Qed.

Lemma round_nearest_even_ge (m : Z) (l : location) :
  m <= round_nearest_even m l.
Proof.
  destruct l as [|[]]; simpl; try destruct (Z.even m); lia.
Qed.

(** Rounding a positive mantissa that is not below the subnormal range
    gives no zero, and no exponent below the one it started from. *)
Lemma binary_round_aux_nonzero (s : bool) (m e : Z) (l : location) :
  0 < m -> -1073 <= Zdigits2 m + e ->
  match binary_round_aux prec emax s m e l with
  | S754_finite _ _ e' => e <= e'
  | S754_infinity _ => True
  | _ => False
  end.
Proof.
  intros Hm Hd. unfold binary_round_aux.
  destruct (shr_fexp_pos m e l Hm Hd) as (H1 & H2 & H3).
  destruct (shr_fexp prec emax m e l) as [mrs' e'].
  cbn [fst snd] in *.
  pose proof (round_nearest_even_ge (shr_m mrs') (loc_of_shr_record mrs'))
    as Hr.
  set (m'' := round_nearest_even (shr_m mrs') (loc_of_shr_record mrs')) in *.
  assert (Hd'' : -1073 <= Zdigits2 m'' + e').
  { destruct m'' as [|q|q]; [lia| |lia]. cbn [Zdigits2]. lia. }
  destruct (shr_fexp_pos m'' e' loc_Exact ltac:(lia) Hd'') as (H4 & H5 & H6).
  destruct (shr_fexp prec emax m'' e' loc_Exact) as [mrs'' e''].
  cbn [fst snd] in *.
  destruct (shr_m mrs'') as [|q|q]; [lia| |lia].
  destruct (e'' <=? emax - prec); [lia|done].
Qed.

Lemma bounded_inv (m : positive) (e : Z) :
  bounded prec emax m e = true ->
  Z.max (Z.pos (digits2_pos m) + e - 53) (-1074) = e.
Proof.
  unfold bounded, canonical_mantissa. intros [H _]%andb_prop.
  apply Z.eqb_eq in H. exact H.
Qed.

(** The square root of a float, when finite and not zero, is a normal
    number of exponent at least -589: at least [2^-537]. *)
Lemma SFsqrt_finite (x : spec_float) (s : bool) (m : positive) (e : Z) :
  valid_binary x = true ->
  SFsqrt prec emax x = S754_finite s m e -> -589 <= e.
Proof.
  destruct x as [sx|[]| |[] mx ex]; try done.
  cbn [valid_binary SFsqrt]. intros Hv%bounded_inv.
  unfold SFsqrt_core_binary.
  set (d := Zdigits2 (Z.pos mx)).
  assert (Hd : 1 <= d) by (unfold d; cbn [Zdigits2]; lia).
  set (ez := Z.min (fexp prec emax (Z.div2 (d + ex + 1))) (Z.div2 ex)).
  assert (Hez : -589 <= ez /\ 2 * ez <= ex).
  { unfold ez. change (fexp prec emax ?x) with (Z.max (x - 53) (-1074)).
    rewrite !Z.div2_div. cbn [Zdigits2] in d. fold d in Hv.
    Z.to_euclidean_division_equations. lia. }
  set (m' := match ex - 2 * ez with
             | 0 => Z.pos mx
             | Z.pos _ => Z.shiftl (Z.pos mx) (ex - 2 * ez)
             | Z.neg _ => 0
             end).
  assert (Hm' : 0 < m').
  { unfold m'. destruct (ex - 2 * ez) as [|p|p] eqn:Hs; [lia| |lia].
    rewrite Z.shiftl_mul_pow2 by lia. 
    assert (0 < 2 ^ Z.pos p) by lia. nia. }
  pose proof (Z.sqrtrem_sqrt m') as Hq.
  destruct (Z.sqrtrem m') as [q r]. cbn [fst] in Hq. subst q.
  assert (Hsq : 0 < Z.sqrt m') by (by apply Z.sqrt_pos).
  set (lz := if r =? 0 then loc_Exact
             else loc_Inexact (if r <=? Z.sqrt m' then Lt else Gt)).
  assert (Hpre : -1073 <= Zdigits2 (Z.sqrt m') + ez).
  { destruct (Z.sqrt m') as [|q|q]; [lia| |lia]. cbn [Zdigits2]. lia. }
  pose proof (binary_round_aux_nonzero false (Z.sqrt m') ez lz Hsq Hpre) as Hb.
  intros Hres. rewrite Hres in Hb. lia.
Qed.

Lemma sqrt_normal (a : float) (s : bool) (m : positive) (e : Z) :
  Prim2SF (sqrt a) = S754_finite s m e ->
  Z.pos (digits2_pos m) = 53 /\ -589 <= e.
Proof.
  intros Hs.
  assert (He : -589 <= e).
  { apply (SFsqrt_finite (Prim2SF a) s m e); [apply Prim2SF_valid|].
    by rewrite <- sqrt_spec. }
  split; [|done].
  pose proof (Prim2SF_valid (sqrt a)) as Hv. rewrite Hs in Hv.
  apply bounded_inv in Hv. lia.
Qed.

(** [x == 0] holds of the two zeros only. *)
Lemma eqb_zero (x : float) :
  (x =? 0)%float = match Prim2SF x with S754_zero _ => true | _ => false end.
Proof.
  rewrite FloatAxioms.eqb_spec.
  change (Prim2SF 0) with (S754_zero false).
  by destruct (Prim2SF x) as [[]|[]| |[] m e].
Qed.

(** The product of two square roots is zero only if one of them is. *)
Lemma sqrt_mul_nonzero (a b : float) :
  (sqrt a =? 0)%float = false -> (sqrt b =? 0)%float = false ->
  (sqrt a * sqrt b =? 0)%float = false.
Proof.
  rewrite !eqb_zero, mul_spec.
  destruct (Prim2SF (sqrt a)) as [s1|s1| |s1 m1 e1] eqn:Ha; try done;
    destruct (Prim2SF (sqrt b)) as [s2|s2| |s2 m2 e2] eqn:Hb; try done.
  intros _ _.
  destruct (sqrt_normal a s1 m1 e1 Ha) as [Hd1 He1].
  destruct (sqrt_normal b s2 m2 e2 Hb) as [Hd2 He2].
  unfold SF64mul. cbn [SFmul].
  pose proof (digits2_pos_lower m1) as Hl1.
  pose proof (digits2_pos_lower m2) as Hl2.
  rewrite Hd1 in Hl1. rewrite Hd2 in Hl2.
  pose proof (digits2_pos_upper (m1 * m2)) as Hu.
  assert (Hprod : 2 ^ 104 <= Z.pos (m1 * m2)).
  { rewrite Pos2Z.inj_mul. change (2 ^ 104) with (2 ^ (53 - 1) * 2 ^ (53 - 1)).
    apply Z.mul_le_mono_nonneg; lia. }
  assert (Hdig : 105 <= Z.pos (digits2_pos (m1 * m2))).
  { destruct (Z.le_gt_cases 105 (Z.pos (digits2_pos (m1 * m2)))) as [|Hlt];
      [done|].
    assert (2 ^ Z.pos (digits2_pos (m1 * m2)) <= 2 ^ 104)
      by (apply Z.pow_le_mono_r; lia).
    lia. }
  pose proof (binary_round_aux_nonzero (xorb s1 s2) (Z.pos (m1 * m2))
                (e1 + e2) loc_Exact ltac:(lia)
                ltac:(cbn [Zdigits2]; lia)) as Hb'.
  by destruct (binary_round_aux prec emax (xorb s1 s2) (Z.pos (m1 * m2))
                 (e1 + e2) loc_Exact).
Qed.

End FloatFacts.

Module SimilarityFacts.
Import Similarity FloatFacts.

Lemma dot_loop_zero_vector (v : list float) :
  forall tmp : float,
    Prim2SF tmp = S754_zero false -> zero_vector v = true ->
    Prim2SF (dot_loop tmp v v) = S754_zero false.
Proof.
  induction v as [|x v IH]; intros tmp Htmp Hz; [done|].
  cbn [zero_vector forallb] in Hz. apply andb_prop in Hz as [Hx Hv].
  cbn [dot_loop]. apply IH; [|done].
  rewrite add_spec, mul_spec, Htmp. rewrite eqb_zero in Hx.
  by destruct (Prim2SF x) as [[]| | |].
Qed.

Lemma np_linalg_norm_zero_vector (v : list float) :
  zero_vector v = true -> (np_linalg_norm v =? 0)%float = true.
Proof.
  intros Hz. unfold np_linalg_norm.
  rewrite eqb_zero, sqrt_spec, (dot_loop_zero_vector v 0%float); done.
Qed.

End SimilarityFacts.

(** ** The similarity against its specification *)

Module SimilaritySpec.
Import Similarity FloatFacts SimilarityFacts.




End SimilaritySpec.

(** ** More facts about the chunker *)

Module WordModeFacts.
Import Chunker ChunkerMeta PyFacts ChunkerFacts.

(** The loop, started at the [k]-th window with [r] more to come after
    it, appends exactly those windows. *)
Lemma chunk_by_words_loop_windows (words : list str) (chunk_size overlap : Z) :
  0 <= overlap < chunk_size ->
  forall (r k fuel : nat) (chunks : list str),
    (r < fuel)%nat ->
    Z.of_nat k * (chunk_size - overlap) < len words ->
    (forall j : nat, (k <= j < k + r)%nat ->
       Z.of_nat j * (chunk_size - overlap) + chunk_size < len words) ->
    len words <= Z.of_nat (k + r) * (chunk_size - overlap) + chunk_size ->
    chunk_by_words_loop fuel words chunk_size overlap
      (Z.of_nat k * (chunk_size - overlap)) chunks
    = Some (chunks ++ map (window words chunk_size overlap) (seq k (S r))).
Proof.
  intros Hov. induction r as [|r IH]; intros k fuel chunks Hfuel Hk Hmid Hlast.
  - destruct fuel as [|fuel]; [lia|]. simpl.
    destruct (_ <? len words) eqn:E1; [|lia].
    destruct (_ >=? _) eqn:E2; [done|].
    rewrite Nat.add_0_r in Hlast. lia.
  - destruct fuel as [|fuel]; [lia|].
    cbn [chunk_by_words_loop].
    destruct (_ <? len words) eqn:E1; [|lia].
    pose proof (Hmid k ltac:(lia)) as Hk'.
    destruct (_ >=? _) eqn:E2; [lia|].
    replace (Z.of_nat k * (chunk_size - overlap) + chunk_size - overlap)
      with (Z.of_nat (S k) * (chunk_size - overlap)) by lia.
    rewrite IH.
    + rewrite <- app_assoc. reflexivity.
    + lia.
    + lia.
    + intros j Hj. apply Hmid. lia.
    + replace (S k + r)%nat with (k + S r)%nat by lia. exact Hlast.
Qed.

(** [window_count] is the number of the first window that reaches the
    last word. *)
Lemma window_count_spec (n chunk_size overlap : Z) :
  0 <= overlap < chunk_size -> 0 < n ->
  exists r : nat,
    window_count n chunk_size overlap = S r /\
    (forall j : nat, (j < r)%nat ->
       Z.of_nat j * (chunk_size - overlap) + chunk_size < n) /\
    n <= Z.of_nat r * (chunk_size - overlap) + chunk_size.
Proof.
  intros Hov Hn. unfold window_count.
  destruct (n <=? 0) eqn:E0; [lia|].
  destruct (n <=? chunk_size) eqn:E1.
  - exists 0%nat. split; [done|]. split; [lia|]. lia.
  - set (stride := chunk_size - overlap).
    set (q := (n - chunk_size + stride - 1) / stride).
    assert (Hs : 0 < stride) by (unfold stride; lia).
    assert (Hq : 0 <= q) by (apply Z.div_pos; lia).
    pose proof (Z.div_mod (n - chunk_size + stride - 1) stride ltac:(lia)) as Hdm.
    pose proof (Z.mod_pos_bound (n - chunk_size + stride - 1) stride Hs) as Hm.
    fold q in Hdm.
    exists (Z.to_nat q). split; [done|]. split.
    + intros j Hj. assert (Z.of_nat j <= q - 1) by lia. nia.
    + rewrite Z2Nat.id by lia. nia.
Qed.

Lemma chunk_by_words_loop_more_fuel (words : list str) (chunk_size overlap : Z) :
  forall (fuel extra : nat) (start : Z) (chunks result : list str),
    chunk_by_words_loop fuel words chunk_size overlap start chunks
    = Some result ->
    chunk_by_words_loop (fuel + extra) words chunk_size overlap start chunks
    = Some result.
Proof.
  induction fuel as [|fuel IH]; intros extra start chunks result; simpl;
    [done|].
  destruct (start <? len words); [|done].
  destruct (_ >=? _); [done|]. apply IH.
Qed.

(** In the expected regime word-count mode returns the windows, one
    every [chunk_size - overlap] words. *)
Lemma chunk_by_words_windows (fuel : nat) (text : str) (chunk_size overlap : Z) :
  0 <= overlap < chunk_size ->
  (window_count (len (split text)) chunk_size overlap < fuel)%nat ->
  chunk_by_words fuel text chunk_size overlap
  = Some (map (window (split text) chunk_size overlap)
            (seq 0 (window_count (len (split text)) chunk_size overlap))).
Proof.
  intros Hov Hfuel. unfold chunk_by_words.
  destruct (decide (0 < len (split text))) as [Hn|Hn].
  - destruct (window_count_spec _ _ _ Hov Hn) as (r & Hr & Hmid & Hlast).
    rewrite Hr in *.
    apply (chunk_by_words_loop_windows _ _ _ Hov r 0 fuel []); try lia.
    intros j Hj. apply Hmid. lia.
  - assert (E : len (split text) = 0) by (unfold len in *; lia).
    rewrite E in *. simpl in Hfuel.
    destruct fuel as [|fuel]; [lia|]. simpl. by rewrite E.
Qed.

(** Whatever the fuel, a run that returns has returned the windows. *)
Lemma chunk_by_words_some (fuel : nat) (text : str) (chunk_size overlap : Z)
    (chunks : list str) :
  0 <= overlap < chunk_size ->
  chunk_by_words fuel text chunk_size overlap = Some chunks ->
  chunks = map (window (split text) chunk_size overlap)
             (seq 0 (window_count (len (split text)) chunk_size overlap)).
Proof.
  intros Hov Hrun.
  set (m := window_count (len (split text)) chunk_size overlap).
  pose proof (chunk_by_words_windows (S m) text chunk_size overlap Hov
                ltac:(lia)) as Hbig.
  apply (chunk_by_words_loop_more_fuel _ _ _ _ (S m)) in Hrun.
  apply (chunk_by_words_loop_more_fuel _ _ _ _ fuel) in Hbig.
  replace (S m + fuel)%nat with (fuel + S m)%nat in Hbig by lia.
  unfold chunk_by_words in *. rewrite Hrun in Hbig.
  by injection Hbig.
Qed.

(** *** Words *)

Lemma split_from_word (w cur : str) :
  forallb nonspace w = true ->
  split_from cur w = match cur ++ w with [] => [] | x => [x] end.
Proof.
  revert cur. induction w as [|c w IH]; intros cur Hw; simpl.
  - rewrite app_nil_r. by destruct cur.
  - simpl in Hw. apply andb_true_iff in Hw as [Hc Hw].
    unfold nonspace in Hc. apply negb_true_iff in Hc. rewrite Hc.
    rewrite IH by done. by rewrite <- app_assoc.
Qed.

Lemma split_word (w : str) : is_word w -> split w = [w].
Proof.
  intros [Hne Hw]. unfold split. rewrite split_from_word by done.
  simpl. by destruct w.
Qed.

Lemma forallb_app_one (cur : str) (c : ascii) :
  forallb nonspace cur = true -> isspace c = false ->
  forallb nonspace (cur ++ [c]) = true.
Proof.
  intros Hcur Hc. rewrite forallb_app, Hcur. simpl.
  unfold nonspace. by rewrite Hc.
Qed.

Lemma split_from_words (s cur : str) :
  forallb nonspace cur = true -> Forall is_word (split_from cur s).
Proof.
  revert cur. induction s as [|c s IH]; intros cur Hcur; simpl.
  - destruct cur; [constructor|]. by repeat constructor.
  - destruct (isspace c) eqn:Hc.
    + destruct cur; [by apply IH|].
      constructor; [by split | by apply IH].
    + apply IH. by apply forallb_app_one.
Qed.

(** What [split] returns are words. *)
Lemma split_words (s : str) : Forall is_word (split s).
Proof. by apply split_from_words. Qed.

(** Joining words with spaces and splitting again gives them back. *)
Lemma split_join_words (ws : list str) :
  Forall is_word ws -> split (join (lit " ") ws) = ws.
Proof.
  intros Hws. rewrite split_join.
  induction Hws as [|w ws Hw _ IH]; [done|].
  simpl. by rewrite split_word, IH.
Qed.

(** *** Slices with indices that are not negative *)

Lemma slice_take_drop {A} (l : list A) (a b : Z) :
  0 <= a <= b ->
  slice l a b = take (Z.to_nat b - Z.to_nat a) (drop (Z.to_nat a) l).
Proof.
  intros Hab. unfold slice, clamp, len.
  destruct (a <? 0) eqn:Ea; [lia|]. destruct (b <? 0) eqn:Eb; [lia|].
  destruct (decide (Z.of_nat (length l) <= a)) as [Hbig|Hsmall].
  - rewrite (Z.min_r a) by lia.
    rewrite !drop_ge by lia. by rewrite !take_nil.
  - rewrite (Z.min_l a) by lia.
    destruct (decide (b <= Z.of_nat (length l))) as [Hb|Hb].
    + rewrite (Z.min_l b) by lia. f_equal. lia.
    + rewrite (Z.min_r b) by lia.
      rewrite !take_ge; [done | |]; rewrite length_drop; lia.
Qed.

(** *** The windows of word-count mode *)

Section Windows.
Variables (words : list str) (chunk_size overlap : Z).
Hypothesis regime : 0 <= overlap < chunk_size.
Hypothesis words_ok : Forall is_word words.

Let stride : nat := Z.to_nat (chunk_size - overlap).

Lemma window_words (k : nat) :
  split (window words chunk_size overlap k)
  = take (Z.to_nat chunk_size) (drop (k * stride) words).
Proof.
  unfold window. rewrite split_join_words.
  - rewrite slice_take_drop by nia. unfold stride. f_equal; [lia|].
    f_equal. nia.
  - rewrite slice_take_drop by nia. by apply Forall_take, Forall_drop.
Qed.

Lemma own_words_window (k : nat) :
  own_words overlap (S k) (window words chunk_size overlap (S k))
  = take stride (drop (k * stride + Z.to_nat chunk_size) words).
Proof.
  unfold own_words. rewrite window_words.
  replace (Z.to_nat chunk_size) with (Z.to_nat overlap + stride)%nat at 1
    by (unfold stride; lia).
  rewrite <- take_drop_commute, drop_drop. do 2 f_equal.
  unfold stride. lia.
Qed.

Lemma own_words_concat (r : nat) :
  concat (map (fun k => own_words overlap k (window words chunk_size overlap k))
            (seq 0 (S r)))
  = take (r * stride + Z.to_nat chunk_size) words.
Proof.
  induction r as [|r IH].
  - simpl. rewrite app_nil_r. unfold own_words.
    rewrite window_words. simpl. by rewrite drop_0.
  - rewrite seq_S, map_app, concat_app, IH. simpl. rewrite app_nil_r.
    rewrite own_words_window, take_take_drop. f_equal. lia.
Qed.

End Windows.

Lemma imap_map_seq {A B} (f : nat -> A -> B) (g : nat -> A) (n : nat) :
  forall start,
    imap (fun i => f (start + i)%nat) (map g (seq start n))
    = map (fun k => f k (g k)) (seq start n).
Proof.
  induction n as [|n IH]; intros start; [done|].
  simpl. rewrite Nat.add_0_r. f_equal.
  rewrite <- IH. apply imap_ext. intros i x _. simpl. f_equal. lia.
Qed.

Lemma window_count_start (n chunk_size overlap : Z) (k : nat) :
  0 <= overlap < chunk_size ->
  (k < window_count n chunk_size overlap)%nat ->
  Z.of_nat k * (chunk_size - overlap) < n.
Proof.
  intros Hov Hk.
  destruct (decide (0 < n)) as [Hn|Hn].
  - destruct (window_count_spec _ _ _ Hov Hn) as (r & Hr & Hmid & _).
    rewrite Hr in Hk. destruct k as [|k]; [lia|].
    specialize (Hmid k ltac:(lia)). lia.
  - unfold window_count in Hk. destruct (n <=? 0) eqn:E; lia.
Qed.

End WordModeFacts.

Module SentenceModeFacts.
Import Chunker ChunkerMeta PyFacts ChunkerFacts.

(** *** Counting words *)

Lemma total_words_app (a b : list str) :
  total_words (a ++ b) = total_words a + total_words b.
Proof.
  unfold total_words, len. rewrite map_app, concat_app, length_app. lia.
Qed.

Lemma total_words_cons (s : str) (ss : list str) :
  total_words (s :: ss) = word_count s + total_words ss.
Proof. unfold total_words, word_count, len. simpl. rewrite length_app. lia. Qed.

Lemma total_words_nonneg (ss : list str) : 0 <= total_words ss.
Proof. unfold total_words, len. lia. Qed.

Lemma word_count_join (ss : list str) :
  word_count (join (lit " ") ss) = total_words ss.
Proof. unfold word_count, total_words. by rewrite split_join. Qed.

Lemma total_words_positive (ss : list str) :
  ss <> [] -> Forall (fun s => 0 < word_count s) ss -> 0 < total_words ss.
Proof.
  destruct 2 as [|s ss Hs _]; [done|].
  rewrite total_words_cons. pose proof (total_words_nonneg ss). lia.
Qed.

Lemma split_length_le (s cur : str) :
  (length (split_from cur s)
   <= length s + match cur with [] => 0 | _ => 1 end)%nat.
Proof.
  revert cur. induction s as [|c s IH]; intros cur; simpl.
  - destruct cur; simpl; lia.
  - destruct (isspace c).
    + destruct cur; simpl; specialize (IH []); simpl in IH; lia.
    + specialize (IH (cur ++ [c])).
      destruct (cur ++ [c]) eqn:E; [by destruct cur|]. destruct cur; lia.
Qed.

(** A string has no more words than characters. *)
Lemma word_count_le_len (s : str) : word_count s <= len s.
Proof.
  unfold word_count, len, split.
  pose proof (split_length_le s []). simpl in *. lia.
Qed.

(** *** The overlap loop *)

(** The loop takes sentences from the end of the chunk while they fit
    the budget, and stops at the first that does not. *)
Lemma overlap_loop_spec (reversed_chunk : list str) (overlap : Z) :
  forall (acc : list str) (n : Z),
    n = total_words acc ->
    exists taken rest,
      reversed_chunk = taken ++ rest /\
      overlap_loop reversed_chunk overlap acc n
      = (rev taken ++ acc, total_words (rev taken ++ acc)) /\
      (taken <> [] -> total_words (rev taken ++ acc) <= overlap) /\
      match rest with
      | [] => True
      | x :: _ => overlap < total_words (rev taken ++ acc) + word_count x
      end.
Proof.
  induction reversed_chunk as [|s r IH]; intros acc n Hn; simpl.
  - exists [], []. simpl. subst n. done.
  - destruct (n + word_count s <=? overlap) eqn:E.
    + destruct (IH (s :: acc) (n + word_count s)) as
        (taken & rest & Hr & Hloop & Hbudget & Hstop).
      { rewrite total_words_cons. lia. }
      exists (s :: taken), rest. simpl.
      rewrite <- !app_assoc. simpl.
      split; [by rewrite Hr|]. split; [done|]. split; [|done].
      intros _. destruct taken as [|t taken]; [|by apply Hbudget].
      simpl. rewrite total_words_cons. lia.
    + exists [], (s :: r). simpl. subst n.
      split; [done|]. split; [done|]. split; [done|]. lia.
Qed.

(** *** Invariants of the sentence loop *)

Section SentenceLoop.
Variables (target_size overlap : Z).

Lemma sentence_loop_parts_overlap (sentences : list str) :
  forall previous current n,
    total_words (carried current) <= Z.max 0 overlap ->
    (forall front x, previous = front ++ x :: carried current ->
       overlap < total_words (carried current) + word_count x) ->
    overlap_maximal overlap previous
      (sentence_loop_parts sentences target_size overlap [] current n).
Proof.
  induction sentences as [|s rest IH]; intros previous current n Hb Hmax;
    simpl.
  - destruct (nonempty_list (sentences_of current)); simpl; done.
  - destruct ((n + word_count s >? target_size)
              && nonempty_list (sentences_of current)); [|by apply IH].
    destruct (overlap_loop_spec (rev (sentences_of current)) overlap [] 0
                eq_refl) as (taken & stopped & Hr & Hloop & Hbudget & Hstop).
    rewrite Hloop, app_nil_r.
    rewrite sentence_loop_parts_acc. simpl.
    split; [done|]. split; [done|].
    rewrite app_nil_r in Hbudget, Hstop.
    apply IH; simpl.
    + destruct taken as [|t taken].
      * unfold total_words, len. simpl. lia.
      * specialize (Hbudget ltac:(done)). lia.
    + intros front x Hprev.
      apply (f_equal (@rev str)) in Hr. rewrite rev_involutive in Hr.
      rewrite Hr, rev_app_distr in Hprev.
      change (front ++ x :: rev taken) with (front ++ [x] ++ rev taken) in Hprev.
      rewrite app_assoc in Hprev. apply app_inv_tail in Hprev.
      apply (f_equal (@rev str)) in Hprev.
      rewrite rev_involutive, rev_app_distr in Hprev. simpl in Hprev.
      subst stopped. exact Hstop.
Qed.

Lemma overlap_maximal_budget (previous : list str) (ps : list parts) :
  overlap_maximal overlap previous ps ->
  Forall (fun p => total_words (carried p) <= Z.max 0 overlap) ps.
Proof.
  revert previous. induction ps as [|p ps IH]; intros previous; simpl;
    [constructor|].
  intros (Hb & _ & Hrest). constructor; [done | by eapply IH].
Qed.

(** The running count is the number of words in the current chunk, and
    a second new sentence only enters a chunk that stays within the
    target. *)
Lemma sentence_loop_parts_target (sentences : list str) :
  forall current n,
    n = total_words (sentences_of current) ->
    ((2 <= length (fresh current))%nat -> n <= target_size) ->
    Forall (fun p => (2 <= length (fresh p))%nat ->
                     total_words (sentences_of p) <= target_size)
      (sentence_loop_parts sentences target_size overlap [] current n).
Proof.
  induction sentences as [|s rest IH]; intros current n Hn Hfit; simpl.
  - destruct (nonempty_list (sentences_of current)); [|constructor].
    repeat constructor. intros H2. specialize (Hfit H2). lia.
  - destruct (n + word_count s >? target_size) eqn:Ebig; simpl.
    + destruct (nonempty_list (sentences_of current)) eqn:Ene.
      * destruct (overlap_loop_spec (rev (sentences_of current)) overlap [] 0
                    eq_refl) as (taken & stopped & _ & Hloop & _ & _).
        rewrite Hloop, app_nil_r, sentence_loop_parts_acc.
        constructor; [intros H2; specialize (Hfit H2); lia|].
        apply IH; simpl.
        -- unfold sentences_of. simpl.
           rewrite total_words_app, total_words_cons.
           unfold total_words at 3, len. simpl. lia.
        -- lia.
      * apply IH; simpl.
        -- unfold sentences_of in *. simpl.
           rewrite app_assoc, total_words_app, total_words_cons.
           unfold total_words at 2, len. simpl. lia.
        -- intros H2. exfalso.
           unfold sentences_of in Ene.
           destruct (carried current), (fresh current); simpl in *;
             done || lia.
    + apply IH; simpl.
      * unfold sentences_of in *. simpl.
        rewrite app_assoc, total_words_app, total_words_cons.
        unfold total_words at 2, len. simpl. lia.
      * intros _. lia.
Qed.

(** With everything fitting the target, the loop closes no chunk before
    the end. *)
Lemma sentence_loop_fits (sentences : list str) :
  forall current_chunk n,
    n = total_words current_chunk ->
    n + total_words sentences <= target_size ->
    sentence_loop sentences target_size overlap [] current_chunk n
    = if nonempty_list (current_chunk ++ sentences)
      then [join (lit " ") (current_chunk ++ sentences)]
      else [].
Proof.
  induction sentences as [|s rest IH]; intros current n Hn Hfit; simpl.
  - rewrite app_nil_r. by destruct current.
  - rewrite total_words_cons in Hfit.
    pose proof (total_words_nonneg rest).
    destruct (n + word_count s >? target_size) eqn:E; [lia|]. simpl.
    rewrite IH.
    + by rewrite <- app_assoc.
    + rewrite total_words_app, total_words_cons.
      unfold total_words at 2, len. simpl. lia.
    + lia.
Qed.

End SentenceLoop.

Lemma chunk_by_sentences_parts_overlap (text : str) (target_size overlap : Z) :
  overlap_maximal overlap []
    (chunk_by_sentences_parts text target_size overlap).
Proof.
  apply sentence_loop_parts_overlap; simpl.
  - unfold total_words, len. simpl. lia.
  - by intros [|? ?] ? ?.
Qed.

(** The new sentences of each chunk are sentences of the text, so each
    has a word. *)
Lemma chunk_by_sentences_parts_fresh_nonblank (text : str)
    (target_size overlap : Z) :
  Forall (fun p => Forall (fun s => 0 < word_count s) (fresh p))
    (chunk_by_sentences_parts text target_size overlap).
Proof.
  pose proof (clean_sentences_nonblank (re_split text)) as Hs.
  rewrite <- (chunk_by_sentences_parts_fresh text target_size overlap) in Hs.
  revert Hs. generalize (chunk_by_sentences_parts text target_size overlap).
  induction l as [|p ps IH]; simpl; [constructor|].
  intros H. apply Forall_app in H as [Hp Hps]. constructor; auto.
Qed.

(** No chunk of sentence-aware mode is without a word. *)
Lemma chunk_by_sentences_nonblank (text : str) (target_size overlap : Z) :
  Forall (fun chunk => 0 < word_count chunk)
    (chunk_by_sentences text target_size overlap).
Proof.
  rewrite <- chunk_by_sentences_parts_erase. apply Forall_fmap.
  pose proof (chunk_by_sentences_parts_fresh_nonblank text target_size overlap)
    as Hwords.
  pose proof (sentence_loop_parts_has_fresh (clean_sentences (re_split text))
                target_size overlap {| carried := []; fresh := [] |} 0
                (or_intror eq_refl)) as Hfresh.
  fold (chunk_by_sentences_parts text target_size overlap) in Hfresh.
  pose proof (conj Hwords Hfresh) as Hboth. apply Forall_and in Hboth.
  eapply Forall_impl; [exact Hboth|].
  intros p [Hw Hf]. simpl. unfold chunk_of, sentences_of.
  rewrite word_count_join, total_words_app.
  pose proof (total_words_nonneg (carried p)).
  pose proof (total_words_positive _ Hf Hw). lia.
Qed.

Lemma length_concat_nonempty {A} (ls : list (list A)) :
  Forall (fun l => l <> []) ls -> (length ls <= length (concat ls))%nat.
Proof.
  induction 1 as [|l ls Hl _ IH]; simpl; [done|].
  rewrite length_app. destruct l; [done|]. simpl. lia.
Qed.

End SentenceModeFacts.

Module SplitterFacts.
Import Chunker ChunkerMeta PyFacts ChunkerFacts.

Lemma space_not_terminal (c : ascii) :
  isspace c = true -> is_terminal c = false.
Proof.
  unfold isspace, is_terminal. generalize (nat_of_ascii c). intros n Hn.
  destruct (Nat.eqb_spec n 46), (Nat.eqb_spec n 33), (Nat.eqb_spec n 63);
    subst; simpl in *; done.
Qed.

Lemma terminal_not_space (c : ascii) :
  is_terminal c = true -> isspace c = false.
Proof.
  intros Ht. destruct (isspace c) eqn:E; [|done].
  apply space_not_terminal in E. congruence.
Qed.

Lemma upper_not_space (c : ascii) : is_upper c = true -> isspace c = false.
Proof.
  unfold isspace, is_upper. generalize (nat_of_ascii c). intros n Hn.
  apply andb_true_iff in Hn as [H1 H2].
  apply Nat.leb_le in H1, H2.
  repeat match goal with
         | |- context [(?a <=? ?b)%nat] => destruct (Nat.leb_spec a b)
         | |- context [(?a =? ?b)%nat] => destruct (Nat.eqb_spec a b)
         end; simpl; try done; lia.
Qed.

(** A match ends on a whitespace character and stops in front of a
    capital. *)
Lemma match_spaces_ends (s : str) (c : ascii) (rest : str) :
  match_spaces s = Some (c, rest) ->
  isspace c = true /\ lookahead_upper rest = true.
Proof.
  revert c rest. induction s as [|x s IH]; intros c rest; simpl; [done|].
  destruct (isspace x) eqn:Hx; [|done].
  destruct (match_spaces s) as [[c' rest']|].
  - intros [= <- <-]. by apply IH.
  - destruct (lookahead_upper s) eqn:Hu; [|done]. by intros [= <- <-].
Qed.

Lemma match_at_ends (prev : option ascii) (s : str) (c : ascii) (rest : str) :
  match_at prev s = Some (c, rest) ->
  (exists p, prev = Some p /\ is_terminal p = true) /\
  isspace c = true /\ lookahead_upper rest = true.
Proof.
  unfold match_at. destruct prev as [p|]; [|done].
  destruct (is_terminal p) eqn:Hp; [|done].
  intros Hm. split; [by exists p | by apply (match_spaces_ends s)].
Qed.

Lemma re_split_loop_shape (fuel : nat) :
  forall prev piece s,
    (length s < fuel)%nat -> scan_ok prev piece ->
    exists x tail,
      re_split_loop fuel prev piece s = (piece ++ x) :: tail /\
      (match_at prev s = None ->
       match s with c :: _ => exists x', x = c :: x' | [] => True end) /\
      Forall (fun p => lookahead_upper p = true) tail /\
      Forall (fun p => ends_terminal p = true)
        (take (length tail) ((piece ++ x) :: tail)).
Proof.
  induction fuel as [|fuel IH]; intros prev piece s Hlen Hok; [lia|].
  simpl. destruct (match_at prev s) as [[c rest]|] eqn:Hm.
  - destruct (match_at_ends _ _ _ _ Hm) as ((p & -> & Hp) & Hc & Hup).
    destruct (match_at_run _ _ _ _ Hm) as (ws & Hne & _ & ->).
    destruct (IH (Some c) [] rest) as (x & tail & Hrec & Hx & Htail & Hends).
    { rewrite length_app in Hlen. destruct ws; [done|]. simpl in Hlen. lia. }
    { simpl. intros ? [= <-]. by apply space_not_terminal. }
    exists [], (x :: tail). rewrite app_nil_r. simpl in Hrec.
    split; [by rewrite Hrec|]. split; [done|]. split.
    + constructor; [|done].
      assert (Hnone : match_at (Some c) rest = None).
      { simpl. by rewrite space_not_terminal. }
      specialize (Hx Hnone). destruct rest as [|r rest]; [done|].
      destruct Hx as [x' ->]. exact Hup.
    + simpl. constructor; [|exact Hends].
      unfold ends_terminal. unfold scan_ok in Hok.
      destruct piece as [|a piece].
      * specialize (Hok p eq_refl). congruence.
      * by rewrite Hok.
  - destruct s as [|c s].
    + exists [], []. rewrite app_nil_r. simpl. done.
    + destruct (IH (Some c) (piece ++ [c]) s) as
        (x & tail & Hrec & _ & Htail & Hends).
      { simpl in Hlen. lia. }
      { unfold scan_ok. destruct (piece ++ [c]) eqn:E;
          [by destruct piece|]. rewrite <- E. apply last_snoc. }
      exists (c :: x), tail. rewrite <- app_assoc in Hrec, Hends.
      split; [exact Hrec|]. split; [by exists x|]. split; done.
Qed.

(** The pieces that [re_split] cuts: every piece but the last ends in a
    terminal, and every piece but the first starts with a capital. *)
Lemma re_split_shape (text : str) :
  exists first rest,
    re_split text = first :: rest /\
    Forall (fun p => lookahead_upper p = true) rest /\
    Forall (fun p => ends_terminal p = true)
      (take (length rest) (first :: rest)).
Proof.
  unfold re_split.
  destruct (re_split_loop_shape (S (length text)) None [] text)
    as (x & tail & Hrec & _ & Htail & Hends); [lia | done |].
  simpl in Hrec, Hends. by exists x, tail.
Qed.

(** *** Stripping keeps the ends of a sentence *)

Lemma lstrip_nonspace_head (c : ascii) (s : str) :
  isspace c = false -> lstrip (c :: s) = c :: s.
Proof. intros Hc. simpl. by rewrite Hc. Qed.

Lemma rstrip_nonspace_last (s : str) (c : ascii) :
  last s = Some c -> isspace c = false -> rstrip s = s.
Proof.
  intros Hl Hc. unfold rstrip.
  destruct (rev s) as [|x r] eqn:E.
  - apply (f_equal (@rev ascii)) in E. rewrite rev_involutive in E.
    by subst s.
  - assert (x = c).
    { apply (f_equal (@rev ascii)) in E. rewrite rev_involutive in E.
      subst s. simpl in Hl. rewrite last_snoc in Hl. congruence. }
    subst x. rewrite lstrip_nonspace_head by done.
    rewrite <- E. apply rev_involutive.
Qed.

Lemma lstrip_last (s : str) (c : ascii) :
  last s = Some c -> isspace c = false -> last (lstrip s) = Some c.
Proof.
  intros Hl Hc. induction s as [|x s IH]; [done|]. simpl.
  destruct (isspace x) eqn:Hx; [|done].
  apply IH. destruct s as [|y s]; [|done].
  simpl in Hl. congruence.
Qed.

Lemma strip_upper (s : str) :
  lookahead_upper s = true -> lookahead_upper (strip s) = true.
Proof.
  destruct s as [|c s]; [done|]. simpl. intros Hc.
  pose proof (upper_not_space c Hc) as Hs.
  unfold strip. rewrite lstrip_nonspace_head by done.
  destruct (rstrip_decompose (c :: s)) as (ws & Hws & Heq).
  destruct (rstrip (c :: s)) as [|x r].
  - simpl in Heq. subst ws. simpl in Hws. by rewrite Hs in Hws.
  - simpl in Heq. injection Heq as <- _. exact Hc.
Qed.

Lemma strip_terminal (s : str) :
  ends_terminal s = true -> ends_terminal (strip s) = true.
Proof.
  unfold ends_terminal. destruct (last s) as [c|] eqn:Hl; [|done].
  intros Hc. pose proof (terminal_not_space c Hc) as Hs.
  unfold strip.
  rewrite (rstrip_nonspace_last (lstrip s) c) by by (apply lstrip_last || done).
  by rewrite (lstrip_last s c).
Qed.

Lemma upper_nonblank (s : str) : lookahead_upper s = true -> strip s <> [].
Proof.
  intros H. apply strip_upper in H. by destruct (strip s).
Qed.

Lemma terminal_nonblank (s : str) : ends_terminal s = true -> strip s <> [].
Proof.
  intros H. apply strip_terminal in H. by destruct (strip s).
Qed.

Lemma clean_sentences_all (pieces : list str) :
  Forall (fun p => strip p <> []) pieces ->
  clean_sentences pieces = map strip pieces.
Proof.
  unfold clean_sentences. induction 1 as [|p ps Hp _ IH]; [done|].
  simpl. destruct (strip p) eqn:E; [done|]. simpl. rewrite <- E. by f_equal.
Qed.

(** The sentences of a text: every sentence but the last ends in one of
    [. ! ?], and every sentence but the first starts with a capital. *)
Lemma sentences_shape (text : str) :
  let sentences := clean_sentences (re_split text) in
  Forall (fun s => lookahead_upper s = true) (drop 1 sentences) /\
  Forall (fun s => ends_terminal s = true)
    (take (length sentences - 1) sentences).
Proof.
  destruct (re_split_shape text) as (first & rest & -> & Hup & Hend).
  destruct rest as [|second rest].
  - unfold clean_sentences. simpl.
    destruct (negb (not_str (strip first))); simpl; by split.
  - cbv zeta. rewrite clean_sentences_all.
    + simpl. rewrite length_map. split.
      * change (strip second :: map strip rest)
          with (map strip (second :: rest)).
        apply Forall_fmap.
        eapply Forall_impl; [exact Hup|]. intros p. apply strip_upper.
      * change (strip first
                :: take (length rest) (strip second :: map strip rest))
          with (take (S (length rest)) (map strip (first :: second :: rest))).
        rewrite <- fmap_take. apply Forall_fmap.
        eapply Forall_impl; [exact Hend|]. intros p. apply strip_terminal.
    + simpl in Hend. apply Forall_cons in Hend as [Hf _].
      constructor; [by apply terminal_nonblank|].
      eapply Forall_impl; [exact Hup|]. intros p. apply upper_nonblank.
Qed.

End SplitterFacts.

(** ** Further properties of the chunker *)

Module ChunkerExtra.
Import Chunker ChunkerMeta PyFacts ChunkerFacts WordModeFacts
  SentenceModeFacts SplitterFacts.

(** X1. A text of whitespace only (the empty text included) gives no
    chunks through every entry point: [chunk_text] in either mode and
    with any sizes, [chunk_by_sentences], and [chunk_by_words], which
    returns at once even when the overlap is as large as the window. *)
Theorem blank_text_has_no_chunks (st : Settings) (fuel : nat) (text : str)
    (chunk_size chunk_overlap : option Z) (respect_sentences : bool)
    (size overlap : Z) :
  forallb isspace text = true ->
  chunk_text st fuel text chunk_size chunk_overlap respect_sentences = Some []
  /\ chunk_by_sentences text size overlap = []
  /\ chunk_by_words (S fuel) text size overlap = Some [].
Proof.
  intros Hblank.
  assert (Hsplit : split text = []).
  { rewrite <- (app_nil_r text). by rewrite split_leading. }
  assert (Hstrip : strip text = []) by by apply strip_nil_split.
  split; [|split].
  - unfold chunk_text. rewrite Hstrip. simpl. by rewrite orb_true_r.
  - unfold chunk_by_sentences.
    pose proof (sentences_words text) as Hw. rewrite Hsplit in Hw.
    pose proof (clean_sentences_nonblank (re_split text)) as Hne.
    destruct (clean_sentences (re_split text)) as [|s ss].
    + simpl. by rewrite Hstrip.
    + exfalso. apply Forall_cons in Hne as [Hs _]. simpl in Hw.
      apply app_eq_nil in Hw as [Hw _].
      unfold word_count in Hs. rewrite Hw in Hs. by vm_compute in Hs.
  - unfold chunk_by_words. rewrite Hsplit. reflexivity.
Qed.

Lemma blank_text_has_no_chunks_witness :
  let text := [" "; "010"; " "]%char in
  chunk_text default_settings 0 text (Some 2) (Some 2) false = Some []
  /\ chunk_by_sentences text 2 2 = []
  /\ chunk_by_words 1 text 2 2 = Some [].
Proof.
  apply (blank_text_has_no_chunks default_settings 0 [" "; "010"; " "]%char
           (Some 2) (Some 2) false 2 2).
  reflexivity.
Defined.

(** X2. In the expected regime, [0 <= overlap < chunk_size], word-count
    mode returns, and its [k]-th chunk is the window of [chunk_size]
    words that starts [k * (chunk_size - overlap)] words into the text;
    there are as many chunks as [window_count] says. *)
Theorem chunk_by_words_slides_a_window (fuel : nat) (text : str)
    (chunk_size overlap : Z) :
  0 <= overlap < chunk_size ->
  (window_count (len (split text)) chunk_size overlap < fuel)%nat ->
  chunk_by_words fuel text chunk_size overlap
  = Some (map (window (split text) chunk_size overlap)
            (seq 0 (window_count (len (split text)) chunk_size overlap))).
Proof. apply chunk_by_words_windows. Qed.

Lemma chunk_by_words_slides_a_window_witness :
  chunk_by_words 4 (lit "a b c d e f g") 3 1
  = Some (map (window (split (lit "a b c d e f g")) 3 1)
            (seq 0 (window_count (len (split (lit "a b c d e f g"))) 3 1))).
Proof.
  apply (chunk_by_words_slides_a_window 4 (lit "a b c d e f g") 3 1).
  - lia.
  - vm_compute. lia.
Defined.

(** X3. In the expected regime the chunks of word-count mode lose no
    word and repeat only the overlap: the first chunk, followed by every
    later chunk without its first [overlap] words, is the word sequence
    of the text. *)
Theorem chunk_by_words_covers_the_text (fuel : nat) (text : str)
    (chunk_size overlap : Z) (chunks : list str) :
  0 <= overlap < chunk_size ->
  chunk_by_words fuel text chunk_size overlap = Some chunks ->
  concat (imap (own_words overlap) chunks) = split text.
Proof.
  intros Hov Hrun.
  rewrite (chunk_by_words_some _ _ _ _ _ Hov Hrun).
  rewrite (imap_ext _ (fun i => own_words overlap (0 + i)%nat))
    by (intros; done).
  rewrite (imap_map_seq (own_words overlap)).
  destruct (decide (0 < len (split text))) as [Hn|Hn].
  - destruct (window_count_spec _ _ _ Hov Hn) as (r & Hr & _ & Hlast).
    rewrite Hr, own_words_concat by (done || apply split_words).
    apply take_ge. unfold len in Hlast. nia.
  - unfold window_count. destruct (len (split text) <=? 0) eqn:E; [|lia].
    simpl. destruct (split text); [done|]. unfold len in Hn. simpl in Hn. lia.
Qed.

Lemma chunk_by_words_covers_the_text_witness :
  concat (imap (own_words 1) [lit "a b c"; lit "c d e"; lit "e f g"])
  = split (lit "a b c d e f g").
Proof.
  apply (chunk_by_words_covers_the_text 4 (lit "a b c d e f g") 3 1);
    [lia | reflexivity].
Defined.

(** X4. In the expected regime no chunk of word-count mode is empty and
    none has more than [chunk_size] words. *)
Theorem chunk_by_words_chunk_sizes (fuel : nat) (text : str)
    (chunk_size overlap : Z) (chunks : list str) :
  0 <= overlap < chunk_size ->
  chunk_by_words fuel text chunk_size overlap = Some chunks ->
  Forall (fun chunk => 1 <= word_count chunk <= chunk_size) chunks.
Proof.
  intros Hov Hrun.
  rewrite (chunk_by_words_some _ _ _ _ _ Hov Hrun).
  apply Forall_fmap, Forall_forall. intros k Hk.
  apply elem_of_seq in Hk as [_ Hk]. simpl in Hk.
  apply (window_count_start _ _ _ _ Hov) in Hk.
  simpl. unfold word_count.
  rewrite window_words by (done || apply split_words).
  unfold len in *. rewrite length_take, length_drop. nia.
Qed.

Lemma chunk_by_words_chunk_sizes_witness :
  Forall (fun chunk => 1 <= word_count chunk <= 3)
    [lit "a b c"; lit "c d e"; lit "e f g"].
Proof.
  apply (chunk_by_words_chunk_sizes 4 (lit "a b c d e f g") 3 1);
    [lia | reflexivity].
Defined.

(** X5. With an overlap that is at least the window,
    [0 < chunk_size <= overlap], word-count mode returns exactly when
    the text has at most [chunk_size] words; on any longer text the loop
    runs forever. *)
Theorem chunk_by_words_full_overlap_returns_iff (text : str)
    (chunk_size overlap : Z) :
  0 < chunk_size <= overlap ->
  (exists fuel chunks,
     chunk_by_words fuel text chunk_size overlap = Some chunks)
  <-> len (split text) <= chunk_size.
Proof.
  intros Hov. split.
  - intros (fuel & chunks & Hrun).
    destruct (decide (len (split text) <= chunk_size)) as [|Hlong]; [done|].
    rewrite chunk_by_words_stuck in Hrun by lia. done.
  - intros Hshort.
    destruct (decide (0 < len (split text))) as [Hn|Hn].
    + exists 1%nat. eexists. by apply chunk_by_words_one_window.
    + exists 1%nat, []. unfold chunk_by_words. simpl.
      destruct (0 <? len (split text)) eqn:E; [lia | done].
Qed.

Lemma chunk_by_words_full_overlap_returns_iff_witness :
  (exists fuel chunks, chunk_by_words fuel (lit "a b c") 2 2 = Some chunks)
  <-> len (split (lit "a b c")) <= 2.
Proof.
  apply (chunk_by_words_full_overlap_returns_iff (lit "a b c") 2 2). lia.
Defined.

(** X6. Sentence-aware mode never produces an empty chunk: every chunk
    it returns has at least one word, for every text, target and
    overlap. *)
Theorem chunk_by_sentences_chunks_have_words (text : str)
    (target_size overlap : Z) :
  Forall (fun chunk => 0 < word_count chunk)
    (chunk_by_sentences text target_size overlap).
Proof. apply chunk_by_sentences_nonblank. Qed.

(** X7. A chunk of sentence-aware mode has at most [target_size] words,
    unless it holds a single new sentence; then it has at most the
    overlap budget more words than that sentence. *)
Theorem chunk_by_sentences_respects_target (text : str)
    (target_size overlap : Z) :
  let ps := chunk_by_sentences_parts text target_size overlap in
  map chunk_of ps = chunk_by_sentences text target_size overlap /\
  Forall (fun p =>
            word_count (chunk_of p) <= target_size \/
            exists s, fresh p = [s] /\
                      word_count (chunk_of p) <= Z.max 0 overlap + word_count s)
    ps.
Proof.
  intros ps. split; [apply chunk_by_sentences_parts_erase|].
  pose proof (sentence_loop_parts_has_fresh (clean_sentences (re_split text))
                target_size overlap {| carried := []; fresh := [] |} 0
                (or_intror eq_refl)) as Hfresh.
  pose proof (sentence_loop_parts_target target_size overlap
                (clean_sentences (re_split text))
                {| carried := []; fresh := [] |} 0 eq_refl
                ltac:(simpl; lia)) as Htarget.
  pose proof (overlap_maximal_budget overlap [] ps
                (chunk_by_sentences_parts_overlap text target_size overlap))
    as Hbudget.
  fold (chunk_by_sentences_parts text target_size overlap) in Hfresh, Htarget.
  fold ps in Hfresh, Htarget.
  pose proof (conj Hfresh (conj Htarget Hbudget)) as Hall.
  rewrite <- !Forall_and in Hall.
  eapply Forall_impl; [exact Hall|].
  intros p (Hf & Ht & Hb). unfold chunk_of. rewrite word_count_join.
  destruct (fresh p) as [|s [|s' rest]] eqn:E; [done | right | left].
  - exists s. split; [done|]. unfold sentences_of.
    rewrite E, total_words_app, total_words_cons.
    unfold total_words at 2, len. simpl. lia.
  - apply Ht. simpl. lia.
Qed.

(** X8. The sentences a chunk carries over from the previous chunk have
    at most [overlap] words in all, and they are as many as fit: the
    sentence before them in the previous chunk, if there is one, would
    exceed the budget. *)
Theorem chunk_by_sentences_overlap_is_maximal (text : str)
    (target_size overlap : Z) :
  overlap_maximal overlap []
    (chunk_by_sentences_parts text target_size overlap).
Proof. apply chunk_by_sentences_parts_overlap. Qed.

(** X9. Called with [overlap = 0], sentence-aware mode repeats nothing:
    no chunk carries a sentence, and the chunks joined by spaces have
    exactly the words of the text, in order. *)
Theorem chunk_by_sentences_zero_overlap_partitions (text : str)
    (target_size : Z) :
  Forall (fun p => carried p = [])
    (chunk_by_sentences_parts text target_size 0) /\
  split (join (lit " ") (chunk_by_sentences text target_size 0)) = split text.
Proof.
  pose proof (chunk_by_sentences_parts_zero text target_size) as Hzero.
  split; [exact Hzero|].
  rewrite <- chunk_by_sentences_parts_erase.
  assert (Hsame : map chunk_of (chunk_by_sentences_parts text target_size 0)
                  = fresh_chunks (chunk_by_sentences_parts text target_size 0)).
  { unfold fresh_chunks. apply Forall_fmap_ext_1.
    eapply Forall_impl; [exact Hzero|].
    intros p Hp. unfold chunk_of, sentences_of. by rewrite Hp. }
  rewrite Hsame, split_join, fresh_chunks_words,
    chunk_by_sentences_parts_fresh.
  apply sentences_words.
Qed.

(** X10. A text that has a word and fits the target comes back as one
    chunk, with the words of the text. *)
Theorem chunk_by_sentences_short_text_is_one_chunk (text : str)
    (target_size overlap : Z) :
  0 < word_count text <= target_size ->
  exists chunk,
    chunk_by_sentences text target_size overlap = [chunk] /\
    split chunk = split text.
Proof.
  intros [Hpos Hfit]. unfold chunk_by_sentences.
  pose proof (sentences_words text) as Hw.
  destruct (clean_sentences (re_split text)) as [|s ss] eqn:E.
  - simpl in Hw. unfold word_count in Hpos. rewrite <- Hw in Hpos.
    by vm_compute in Hpos.
  - cbn [nonempty_list].
    rewrite (sentence_loop_fits target_size overlap (s :: ss) [] 0 eq_refl).
    + simpl app. cbn [nonempty_list]. eexists. split; [reflexivity|].
      by rewrite split_join.
    + unfold total_words. rewrite Hw. unfold word_count in Hfit. lia.
Qed.

Lemma chunk_by_sentences_short_text_is_one_chunk_witness :
  exists chunk,
    chunk_by_sentences (lit "Aa bb.  Cc dd.") 10 2 = [chunk] /\
    split chunk = split (lit "Aa bb.  Cc dd.").
Proof.
  apply (chunk_by_sentences_short_text_is_one_chunk (lit "Aa bb.  Cc dd.") 10 2).
  vm_compute. split; [reflexivity | discriminate].
Defined.

(** X11. The sentences that sentence-aware mode works with: every
    sentence but the last ends in one of [. ! ?], and every sentence but
    the first starts with a capital letter [A-Z]. *)
Theorem sentences_end_and_start_at_boundaries (text : str) :
  let sentences := clean_sentences (re_split text) in
  Forall (fun s => lookahead_upper s = true) (drop 1 sentences) /\
  Forall (fun s => ends_terminal s = true)
    (take (length sentences - 1) sentences).
Proof. apply sentences_shape. Qed.

(** X12. Sentence-aware mode returns at most one chunk per sentence, and
    so at most as many chunks as the text has words. *)
Theorem chunk_by_sentences_chunk_count (text : str) (target_size overlap : Z) :
  len (chunk_by_sentences text target_size overlap)
  <= len (clean_sentences (re_split text)) <= word_count text.
Proof.
  unfold len, word_count. split.
  - rewrite <- chunk_by_sentences_parts_erase, length_map.
    rewrite <- (chunk_by_sentences_parts_fresh text target_size overlap).
    apply inj_le.
    rewrite <- (length_map fresh
                  (chunk_by_sentences_parts text target_size overlap)).
    apply length_concat_nonempty, Forall_fmap.
    apply sentence_loop_parts_has_fresh. by right.
  - rewrite <- (sentences_words text). apply inj_le.
    rewrite <- (length_map split (clean_sentences (re_split text))).
    apply length_concat_nonempty, Forall_fmap.
    eapply Forall_impl; [apply clean_sentences_nonblank|].
    intros s Hs. simpl. unfold word_count, len in Hs.
    destruct (split s); [simpl in Hs; lia | done].
Qed.

(** X13. [chunk_with_metadata] always returns; its records are the
    chunks of [chunk_text] in order, numbered 0, 1, 2, ... in
    [chunk_index], each with the given source and with at least one word
    and at least as many characters as words. *)
Theorem chunk_with_metadata_numbers_chunks (st : Settings) (fuel : nat)
    (text source_file : str) (chunk_size chunk_overlap : option Z) :
  exists records,
    chunk_with_metadata st fuel text source_file chunk_size chunk_overlap
    = Some records /\
    chunk_text st fuel text chunk_size chunk_overlap true
    = Some (map rec_content records) /\
    map rec_chunk_index records
    = map Z.of_nat (seq 0 (length records)) /\
    Forall (fun r => rec_source_file r = source_file /\
                     rec_word_count r = word_count (rec_content r) /\
                     1 <= rec_word_count r <= rec_char_count r) records.
Proof.
  unfold chunk_with_metadata. rewrite chunk_text_unfold.
  set (chunks := if not_str text || not_str (strip text) then []
                 else chunk_by_sentences text
                        (or_int chunk_size (CHUNK_SIZE st))
                        (or_int chunk_overlap (CHUNK_OVERLAP st))).
  assert (Hrun : (if not_str text || not_str (strip text) then Some []
                  else Some (chunk_by_sentences text
                               (or_int chunk_size (CHUNK_SIZE st))
                               (or_int chunk_overlap (CHUNK_OVERLAP st))))
                 = Some chunks).
  { unfold chunks. by destruct (not_str text || not_str (strip text)). }
  assert (Hwords : Forall (fun chunk => 0 < word_count chunk) chunks).
  { unfold chunks. destruct (not_str text || not_str (strip text));
      [constructor | apply chunk_by_sentences_nonblank]. }
  rewrite Hrun. simpl. eexists. split; [reflexivity|].
  clear Hrun. generalize dependent chunks. intros chunks Hwords.
  assert (Hgen : forall start,
    map rec_content
      (imap (fun i chunk =>
               {| rec_content := chunk; rec_source_file := source_file;
                  rec_chunk_index := Z.of_nat (start + i);
                  rec_word_count := len (split chunk);
                  rec_char_count := len chunk |}) chunks) = chunks /\
    map rec_chunk_index
      (imap (fun i chunk =>
               {| rec_content := chunk; rec_source_file := source_file;
                  rec_chunk_index := Z.of_nat (start + i);
                  rec_word_count := len (split chunk);
                  rec_char_count := len chunk |}) chunks)
    = map Z.of_nat (seq start (length chunks)) /\
    Forall (fun r => rec_source_file r = source_file /\
                     rec_word_count r = word_count (rec_content r) /\
                     1 <= rec_word_count r <= rec_char_count r)
      (imap (fun i chunk =>
               {| rec_content := chunk; rec_source_file := source_file;
                  rec_chunk_index := Z.of_nat (start + i);
                  rec_word_count := len (split chunk);
                  rec_char_count := len chunk |}) chunks)).
  { induction Hwords as [|chunk chunks Hc _ IH]; intros start; [done|].
    destruct (IH (S start)) as (IH1 & IH2 & IH3).
    cbn [imap length seq map].
    rewrite (imap_ext _ (fun i chunk0 =>
               {| rec_content := chunk0; rec_source_file := source_file;
                  rec_chunk_index := Z.of_nat (S start + i);
                  rec_word_count := len (split chunk0);
                  rec_char_count := len chunk0 |}))
      by (intros; simpl; f_equal; lia).
    rewrite IH1, IH2, Nat.add_0_r.
    split; [done|]. split; [done|]. constructor; [|done]. simpl.
    pose proof (word_count_le_len chunk). unfold word_count in *.
    split; [done|]. split; [done|]. lia. }
  destruct (Hgen 0%nat) as (H1 & H2 & H3). simpl in H1, H2, H3.
  rewrite length_imap.
  split; [by rewrite H1|]. split; [exact H2 | exact H3].
Qed.

(** X14. [estimate_chunks] raises [ZeroDivisionError] exactly when the
    chunk size in effect is 0 or 1, since it divides by half of it;
    otherwise it returns an estimate of at least 1. *)
Theorem estimate_chunks_divides_by_half (st : Settings) (text : str)
    (chunk_size : option Z) :
  let size := or_int chunk_size (CHUNK_SIZE st) in
  if (size =? 0) || (size =? 1)
  then estimate_chunks st text chunk_size = inl ZeroDivisionError
  else exists n, estimate_chunks st text chunk_size = inr n /\ 1 <= n.
Proof.
  intros size. unfold estimate_chunks. fold size.
  destruct ((size =? 0) || (size =? 1)) eqn:E.
  - assert (Hhalf : size / 2 = 0).
    { apply orb_true_iff in E as [E|E]; apply Z.eqb_eq in E; by rewrite E. }
    by rewrite Hhalf.
  - apply orb_false_iff in E as [E0 E1].
    apply Z.eqb_neq in E0, E1.
    destruct (size / 2 =? 0) eqn:Eh.
    + apply Z.eqb_eq in Eh.
      pose proof (Z.div_mod size 2 ltac:(lia)) as Hdm.
      pose proof (Z.mod_pos_bound size 2 ltac:(lia)). lia.
    + eexists. split; [reflexivity | lia].
Qed.

End ChunkerExtra.

(** ** Further properties of the retriever, the prompts and the pipeline *)

Module PipelineExtra.
Import Retrieval RetrievalFacts CDSSPipeline Prompts.

Section Extra.
Context {F : Type} `{PyFloat F} (st : Settings) (svc : Services F).

Lemma join_head (sep x : str) (xs : list str) :
  exists tail, join sep (x :: xs) = x ++ tail.
Proof. destruct xs; simpl; eexists; [by rewrite app_nil_r | done]. Qed.

(** X15. What [format_context] makes of retrieved chunks always reaches
    the model through the grounded template: [build_rag_prompt] falls
    back to the no-context prompt exactly when no chunk was retrieved,
    where [format_context] gives the sentinel. *)
Theorem build_rag_prompt_grounds_retrieved_context (query : str)
    (chunks : list (Chunk F)) :
  build_rag_prompt query (format_context chunks true)
  = if nonempty_list chunks
    then RAG_PROMPT_TEMPLATE (format_context chunks true) query
    else NO_CONTEXT_PROMPT query.
Proof.
  destruct chunks as [|chunk rest]; [reflexivity|].
  cbn [nonempty_list]. unfold format_context. cbn [nonempty_list].
  rewrite format_context_loop_blocks. cbn [imap app].
  match goal with
  | |- context [join ?sep (?x :: ?xs)] =>
      destruct (join_head sep x xs) as [tail Htail]; rewrite Htail
  end.
  reflexivity.
Qed.

(** X16. Every preview that [get_sources] builds ends in an ellipsis and
    has between 3 and 103 characters; a content of at most 100
    characters is shown whole before the ellipsis. *)
Theorem get_sources_preview_shape (chunks : list (Chunk F)) :
  Forall2 (fun chunk cite =>
             let text := default [] (content chunk) in
             3 <= len (preview cite) <= 103 /\
             drop (length (preview cite) - 3) (preview cite) = lit "..." /\
             (if len text <=? 100
              then preview cite = text ++ lit "..."
              else len (preview cite) = 103))
    chunks (get_sources chunks).
Proof.
  unfold get_sources. apply Forall2_fmap_r, Forall_Forall2_diag, Forall_forall.
  intros chunk _. unfold compose. cbv zeta. cbn [preview].
  set (text := default [] (content chunk)).
  assert (Hlen : length (take 100 text ++ lit "...")
                 = (min 100 (length text) + 3)%nat).
  { by rewrite length_app, length_take. }
  unfold len. rewrite Hlen. split; [lia|]. split.
  - replace (min 100 (length text) + 3 - 3)%nat
      with (length (take 100 text)) by (rewrite length_take; lia).
    by rewrite drop_app_length.
  - destruct (Z.of_nat (length text) <=? 100) eqn:E.
    + rewrite take_ge; [done | lia].
    + lia.
Qed.

(** X17. A result that [query] returns is consistent: it echoes the
    question, counts as many chunks as it lists sources, and is either
    the fallback, reached without any generation call, or the
    generator's answer to the context assembled from the retrieved
    chunks, the one generation call being the last call made. *)
Theorem query_result_is_consistent (self : CDSSPipeline.t F)
    (question : str) (source_filter : option str)
    (log : list (call F)) (r : QueryResult.t F) :
  query st svc self question source_filter = (log, inr r) ->
  QueryResult.query r = question /\
  QueryResult.chunks_retrieved r = len (QueryResult.sources r) /\
  ((QueryResult.chunks_retrieved r = 0 /\
    QueryResult.answer r = fallback_answer /\
    QueryResult.context_used r = [] /\
    Forall (fun c => is_generation c = false) log)
   \/
   (0 < QueryResult.chunks_retrieved r /\
    exists chunks retrieval_log,
      retrieve_relevant_chunks st svc question (Some (top_k self))
        source_filter (min_similarity self) = (retrieval_log, inr chunks) /\
      QueryResult.sources r = get_sources chunks /\
      QueryResult.context_used r = format_context chunks true /\
      log = retrieval_log
            ++ [GenerateAnswer question (QueryResult.context_used r)
                  (temperature self)] /\
      generate_answer svc question (QueryResult.context_used r)
        (temperature self) = inr (QueryResult.answer r))).
Proof.
  unfold query.
  pose proof (retrieve_relevant_chunks_no_generation st svc question
                (Some (top_k self)) source_filter (min_similarity self))
    as Hnogen.
  destruct (retrieve_relevant_chunks st svc question (Some (top_k self))
              source_filter (min_similarity self)) as [rlog [e|chunks]];
    simpl; [done|].
  destruct chunks as [|chunk rest]; simpl.
  - intros [= <- <-]. simpl. rewrite app_nil_r.
    split; [done|]. split; [done|]. left. done.
  - unfold perform.
    destruct (generate_answer svc question _ (temperature self))
      as [e|ans] eqn:Hgen; simpl; [done|].
    intros [= <- <-]. simpl. split; [done|]. split.
    + unfold len, get_sources. cbn [length]. by rewrite length_map.
    + right. split; [unfold len; simpl; lia|].
      exists (chunk :: rest), rlog. done.
Qed.

(** X18. [query] substitutes no answer for a failure, and raises only
    what a collaborator raised. If the embedder raises, if the index
    raises, or if the completion service raises on the context of a
    non-empty retrieval, then [query] raises that very exception, the
    failing call being the last call made; in particular it returns no
    result, neither the fallback nor any other. Conversely, an exception
    that [query] raises is one of these three. *)
Theorem query_raises_only_collaborator_errors (self : CDSSPipeline.t F)
    (question : str) (source_filter : option str) :
  let k := or_int (Some (top_k self)) (TOP_K_RESULTS st) in
  (forall e : exn,
     embed_text svc question = inl e ->
     query st svc self question source_filter
     = ([EmbedText question], inl e)) /\
  (forall (query_embedding : list F) (e : exn),
     embed_text svc question = inr query_embedding ->
     search_similar svc query_embedding k source_filter = inl e ->
     query st svc self question source_filter
     = ([EmbedText question;
         SearchSimilar query_embedding k source_filter], inl e)) /\
  (forall (retrieval_log : list (call F)) (chunks : list (Chunk F))
          (e : exn),
     retrieve_relevant_chunks st svc question (Some (top_k self))
       source_filter (min_similarity self) = (retrieval_log, inr chunks) ->
     nonempty_list chunks = true ->
     generate_answer svc question (format_context chunks true)
       (temperature self) = inl e ->
     query st svc self question source_filter
     = (retrieval_log
        ++ [GenerateAnswer question (format_context chunks true)
              (temperature self)], inl e)) /\
  (forall (log : list (call F)) (e : exn),
     query st svc self question source_filter = (log, inl e) ->
     embed_text svc question = inl e \/
     (exists query_embedding,
        embed_text svc question = inr query_embedding /\
        search_similar svc query_embedding k source_filter = inl e) \/
     (exists retrieval_log chunks,
        retrieve_relevant_chunks st svc question (Some (top_k self))
          source_filter (min_similarity self) = (retrieval_log, inr chunks) /\
        nonempty_list chunks = true /\
        generate_answer svc question (format_context chunks true)
          (temperature self) = inl e /\
        log = retrieval_log
              ++ [GenerateAnswer question (format_context chunks true)
                    (temperature self)])).
Proof.
  cbv zeta. repeat split.
  - intros e He. unfold query, retrieve_relevant_chunks, perform.
    by rewrite He.
  - intros emb e Hemb Hs. unfold query, retrieve_relevant_chunks, perform.
    rewrite Hemb. simpl in Hs |- *. by rewrite Hs.
  - intros rlog chunks e Hr Hne Hgen. unfold query. rewrite Hr. simpl.
    rewrite Hne. simpl. unfold perform. by rewrite Hgen.
  - intros log e. unfold query.
    destruct (retrieve_relevant_chunks st svc question (Some (top_k self))
                source_filter (min_similarity self))
      as [rlog [e0|chunks]] eqn:Hr.
    + simpl. intros [= <- <-]. revert Hr.
      unfold retrieve_relevant_chunks, perform.
      destruct (embed_text svc question) as [e1|emb]; simpl.
      { intros [= _ <-]. by left. }
      destruct (search_similar svc emb _ source_filter) as [e2|results] eqn:Hs;
        simpl; [|done].
      intros [= _ <-]. right. left. exists emb. split; [done | exact Hs].
    + simpl. destruct (nonempty_list chunks) eqn:Hne; simpl; [|done].
      unfold perform.
      destruct (generate_answer svc question _ (temperature self))
        as [e3|ans] eqn:Hgen; simpl; [|done].
      intros [= <- <-]. right. right. exists rlog, chunks. done.
Qed.

(** X19. When its retrieval finds nothing, [query_stream] yields exactly
    one [error] event, no [answer_chunk], ends normally and makes no
    generation call. *)
Theorem query_stream_empty_retrieval (self : CDSSPipeline.t F)
    (question : str) (source_filter : option str) (log : list (call F)) :
  query_stream_retrieval st svc self question source_filter
  = (log, inr []) ->
  query_stream st svc self question source_filter
  = (log, ([EvError (lit "No relevant information found.")], None)) /\
  Forall (fun c => is_generation c = false) log.
Proof.
  intros Hr. split.
  - unfold query_stream. by rewrite Hr.
  - pose proof (retrieve_relevant_chunks_no_generation st svc question
                  (Some (top_k self)) source_filter f_zero) as Hlog.
    unfold query_stream_retrieval in Hr. by rewrite Hr in Hlog.
Qed.

(** X20. The events of a run of [query_stream] come in a fixed order:
    nothing at all if retrieval raised; a single [error]; or [sources]
    first and once, then the answer fragments in the order the service
    gave them, then [done], which is left out exactly when the service
    failed on the way. *)
Theorem query_stream_event_order (self : CDSSPipeline.t F)
    (question : str) (source_filter : option str) :
  let run := query_stream st svc self question source_filter in
  match run.2.1 with
  | [] => is_Some run.2.2
  | [EvError _] => run.2.2 = None
  | EvSources srcs :: rest =>
      exists log chunks,
        query_stream_retrieval st svc self question source_filter
        = (log, inr chunks) /\
        srcs = get_sources chunks /\
        rest = map EvAnswerChunk
                 (generate_answer_stream svc question
                    (format_context chunks true) (temperature self)).1
               ++ match run.2.2 with None => [EvDone] | Some _ => [] end
  | _ => False
  end.
Proof.
  unfold query_stream.
  destruct (query_stream_retrieval st svc self question source_filter)
    as [log [e|chunks]]; simpl; [done|].
  destruct chunks as [|chunk rest]; simpl; [done|].
  destruct (generate_answer_stream svc question _ (temperature self))
    as [fragments failure] eqn:Hgen. simpl.
  exists log, (chunk :: rest). split; [done|]. split; [done|].
  unfold format_context. cbn [nonempty_list].
  unfold format_context in Hgen. cbn [nonempty_list] in Hgen.
  by rewrite Hgen.
Qed.

(** X21. With a [min_similarity] that is not above 0 the streaming path
    agrees with [query]: whenever [query] returns a result built from
    chunks, the [sources] event of the stream carries the same sources
    and the stream's generation call is made with the same context. *)
Theorem query_stream_agrees_without_threshold (self : CDSSPipeline.t F)
    (question : str) (source_filter : option str)
    (log : list (call F)) (r : QueryResult.t F) :
  f_gt (min_similarity self) f_zero = false ->
  query st svc self question source_filter = (log, inr r) ->
  0 < QueryResult.chunks_retrieved r ->
  let run := query_stream st svc self question source_filter in
  stream_sources run.2.1 = Some (QueryResult.sources r) /\
  last run.1
  = Some (GenerateAnswerStream question (QueryResult.context_used r)
            (temperature self)).
Proof.
  intros Hmin Hq Hpos. unfold query_stream, query_stream_retrieval in *.
  unfold query in Hq.
  assert (Hsame : retrieve_relevant_chunks st svc question
                    (Some (top_k self)) source_filter f_zero
                  = retrieve_relevant_chunks st svc question
                      (Some (top_k self)) source_filter (min_similarity self)).
  { unfold retrieve_relevant_chunks. by rewrite Hmin, f_gt_zero_zero. }
  rewrite Hsame.
  destruct (retrieve_relevant_chunks st svc question (Some (top_k self))
              source_filter (min_similarity self)) as [rlog [e|chunks]];
    simpl in *; [done|].
  destruct chunks as [|chunk rest]; simpl in *.
  - injection Hq as <- <-. simpl in Hpos. lia.
  - unfold perform in Hq.
    destruct (generate_answer svc question _ (temperature self));
      simpl in Hq; [done|].
    injection Hq as <- <-. simpl.
    destruct (generate_answer_stream svc question _ (temperature self))
      as [fragments failure]. simpl. split; [done|].
    by rewrite last_snoc.
Qed.

(** X22. Whatever the threshold, [retrieve_relevant_chunks] asks the
    embedder and then the index once each, the index for [top_k] rows or,
    when [top_k] is [None] or 0, for the configured default; what it
    returns is a sublist of the rows the index gave, and all of them,
    untouched, when [min_similarity] is not above 0. *)
Theorem retrieve_returns_rows_of_the_index (query : str) (top_k : option Z)
    (source_filter : option str) (min_similarity : F)
    (query_embedding : list F) (results : list (Chunk F)) :
  embed_text svc query = inr query_embedding ->
  search_similar svc query_embedding (or_int top_k (TOP_K_RESULTS st))
    source_filter = inr results ->
  exists kept,
    retrieve_relevant_chunks st svc query top_k source_filter min_similarity
    = ([EmbedText query;
        SearchSimilar query_embedding (or_int top_k (TOP_K_RESULTS st))
          source_filter],
       inr kept) /\
    kept `sublist_of` results /\
    (f_gt min_similarity f_zero = false -> kept = results).
Proof.
  intros He Hs.
  rewrite (retrieve_relevant_chunks_ok st svc _ _ _ _ _ _ He Hs).
  eexists. split; [reflexivity|].
  destruct (f_gt min_similarity f_zero); split; try done.
  apply filter_sublist.
Qed.

End Extra.

Lemma retrieve_returns_rows_of_the_index_witness :
  exists kept,
    retrieve_relevant_chunks default_settings (Demo.services Demo.rows)
      (lit "variants") (Some 0) None 0%Q
    = ([EmbedText (lit "variants"); SearchSimilar [1%Q; 0%Q] 5 None],
       inr kept) /\
    kept `sublist_of` Demo.rows /\
    (f_gt 0%Q f_zero = false -> kept = Demo.rows).
Proof.
  apply (retrieve_returns_rows_of_the_index default_settings
           (Demo.services Demo.rows) (lit "variants") (Some 0) None 0%Q
           [1%Q; 0%Q] Demo.rows); reflexivity.
Defined.

Lemma query_result_is_consistent_witness :
  let self := init default_settings None (3 # 10)%Q 0%Q in
  let question := lit "variants" in
  let log := (query default_settings (Demo.services Demo.rows) self
                question None).1 in
  let r := {| QueryResult.query := question;
              QueryResult.answer := lit "See [Source 1].";
              QueryResult.sources := get_sources Demo.rows;
              QueryResult.context_used := format_context Demo.rows true;
              QueryResult.chunks_retrieved := 3 |} in
  QueryResult.query r = question /\
  QueryResult.chunks_retrieved r = len (QueryResult.sources r) /\
  ((QueryResult.chunks_retrieved r = 0 /\
    QueryResult.answer r = fallback_answer /\
    QueryResult.context_used r = [] /\
    Forall (fun c => is_generation c = false) log)
   \/
   (0 < QueryResult.chunks_retrieved r /\
    exists chunks retrieval_log,
      retrieve_relevant_chunks default_settings (Demo.services Demo.rows)
        question (Some (top_k self)) None (min_similarity self)
      = (retrieval_log, inr chunks) /\
      QueryResult.sources r = get_sources chunks /\
      QueryResult.context_used r = format_context chunks true /\
      log = retrieval_log
            ++ [GenerateAnswer question (QueryResult.context_used r)
                  (temperature self)] /\
      generate_answer (Demo.services Demo.rows) question
        (QueryResult.context_used r) (temperature self)
      = inr (QueryResult.answer r))).
Proof.
  apply (query_result_is_consistent default_settings
           (Demo.services Demo.rows)
           (init default_settings None (3 # 10)%Q 0%Q) (lit "variants") None).
  reflexivity.
Defined.

Lemma query_raises_only_collaborator_errors_witness :
  let svc := DemoFailure.services Demo.rows in
  let self := init default_settings None (3 # 10)%Q 0%Q in
  let question := lit "variants" in
  let retrieval :=
    retrieve_relevant_chunks default_settings svc question
      (Some (top_k self)) None (min_similarity self) in
  exists chunks,
    retrieval.2 = inr chunks /\
    nonempty_list chunks = true /\
    generate_answer svc question (format_context chunks true)
      (temperature self) = inl DemoFailure.timeout /\
    query default_settings svc self question None
    = (retrieval.1
       ++ [GenerateAnswer question (format_context chunks true)
             (temperature self)], inl DemoFailure.timeout).
Proof.
  cbv zeta. eexists. split; [reflexivity|].
  split; [reflexivity|]. split; [reflexivity|].
  apply (proj1 (proj2 (proj2
           (query_raises_only_collaborator_errors default_settings
              (DemoFailure.services Demo.rows)
              (init default_settings None (3 # 10)%Q 0%Q)
              (lit "variants") None))));
    reflexivity.
Defined.

Lemma query_stream_empty_retrieval_witness :
  let self := init default_settings None (3 # 10)%Q (1 # 2)%Q in
  let log := [EmbedText (lit "unrelated"); SearchSimilar [1%Q; 0%Q] 5 None] in
  query_stream default_settings (Demo.services []) self (lit "unrelated") None
  = (log, ([EvError (lit "No relevant information found.")], None)) /\
  Forall (fun c => is_generation c = false) log.
Proof.
  apply (query_stream_empty_retrieval default_settings (Demo.services [])
           (init default_settings None (3 # 10)%Q (1 # 2)%Q)
           (lit "unrelated") None).
  reflexivity.
Defined.

Lemma query_stream_agrees_without_threshold_witness :
  let svc := Demo.services Demo.rows in
  let self := init default_settings None (3 # 10)%Q 0%Q in
  let question := lit "variants" in
  let run := query_stream default_settings svc self question None in
  stream_sources run.2.1 = Some (get_sources Demo.rows) /\
  last run.1
  = Some (GenerateAnswerStream question (format_context Demo.rows true)
            (temperature self)).
Proof.
  exact (query_stream_agrees_without_threshold default_settings
           (Demo.services Demo.rows)
           (init default_settings None (3 # 10)%Q 0%Q) (lit "variants") None
           (query default_settings (Demo.services Demo.rows)
              (init default_settings None (3 # 10)%Q 0%Q)
              (lit "variants") None).1
           {| QueryResult.query := lit "variants";
              QueryResult.answer := lit "See [Source 1].";
              QueryResult.sources := get_sources Demo.rows;
              QueryResult.context_used := format_context Demo.rows true;
              QueryResult.chunks_retrieved := 3 |}
           eq_refl eq_refl eq_refl).
Defined.

(** X23. [build_followup_prompt] quotes at most the last three
    exchanges: anything older does not change the prompt. *)
Theorem build_followup_prompt_keeps_last_three (query context : str)
    (older recent : list (str * str)) :
  length recent = 3%nat ->
  build_followup_prompt query context (older ++ recent)
  = build_followup_prompt query context recent.
Proof.
  intros Hlen. unfold build_followup_prompt.
  assert (Hlast : forall l : list (str * str),
             (3 <= length l)%nat ->
             slice l (-3) (len l) = drop (length l - 3) l).
  { intros l Hl. unfold slice, clamp, len.
    change (-3 <? 0) with true. cbv iota.
    destruct (Z.of_nat (length l) <? 0) eqn:E; [lia|].
    rewrite Z.min_id, (Z.max_l (-3 + Z.of_nat (length l))) by lia.
    replace (Z.to_nat (-3 + Z.of_nat (length l))) with (length l - 3)%nat
      by lia.
    apply take_ge. rewrite length_drop. lia. }
  assert (Hslice : slice (older ++ recent) (-3) (len (older ++ recent))
                   = recent).
  { rewrite Hlast by (rewrite length_app; lia).
    rewrite length_app, Hlen.
    replace (length older + 3 - 3)%nat with (length older) by lia.
    apply drop_app_length. }
  assert (Hslice' : slice recent (-3) (len recent) = recent).
  { rewrite Hlast by lia. rewrite Hlen. apply drop_0. }
  rewrite Hslice, Hslice'.
  destruct recent as [|x recent]; [done|]. by destruct older.
Qed.

Lemma build_followup_prompt_keeps_last_three_witness :
  build_followup_prompt (lit "q") (lit "c")
    ([(lit "q0", lit "a0")]
     ++ [(lit "q1", lit "a1"); (lit "q2", lit "a2"); (lit "q3", lit "a3")])
  = build_followup_prompt (lit "q") (lit "c")
      [(lit "q1", lit "a1"); (lit "q2", lit "a2"); (lit "q3", lit "a3")].
Proof.
  apply (build_followup_prompt_keeps_last_three (lit "q") (lit "c")
           [(lit "q0", lit "a0")]
           [(lit "q1", lit "a1"); (lit "q2", lit "a2"); (lit "q3", lit "a3")]).
  reflexivity.
Defined.

End PipelineExtra.

(** ** Properties of the ingest path *)

Module IngestExtra.
Import Ingest.

Section Embedding.
Context {F : Type} (svc : IngestServices F).

Lemma embed_document_chunks_loop_spec (pairs : list (str * list F))
    (source_file : str) :
  forall (i : Z) (acc : list (EmbeddedChunk F)),
    let out := embed_document_chunks_loop i pairs source_file acc in
    map ec_content out = map ec_content acc ++ map fst pairs /\
    map ec_embedding out = map ec_embedding acc ++ map snd pairs /\
    map ec_chunk_index out
    = map ec_chunk_index acc
      ++ map (fun k => i + Z.of_nat k) (seq 0 (length pairs)) /\
    (Forall (fun d => ec_source_file d = source_file /\
                      ec_word_count d = len (split (ec_content d)) /\
                      ec_char_count d = len (ec_content d)) acc ->
     Forall (fun d => ec_source_file d = source_file /\
                      ec_word_count d = len (split (ec_content d)) /\
                      ec_char_count d = len (ec_content d)) out).
Proof.
  induction pairs as [|[chunk embedding] rest IH]; intros i acc; simpl.
  - rewrite !app_nil_r. done.
  - destruct (IH (i + 1) (acc ++ [{| ec_content := chunk;
                                     ec_embedding := embedding;
                                     ec_source_file := source_file;
                                     ec_chunk_index := i;
                                     ec_word_count := len (split chunk);
                                     ec_char_count := len chunk |}]))
      as (H1 & H2 & H3 & H4).
    rewrite H1, H2, H3, !map_app, <- !app_assoc. simpl.
    split; [done|]. split; [done|]. split.
    + do 2 f_equal; [f_equal; lia|].
      rewrite <- seq_shift, map_map. apply map_ext. intros k. lia.
    + intros Hacc. apply H4, Forall_app. split; [done|].
      by repeat constructor.
Qed.

Lemma fst_zip_take {A B} (a : list A) (b : list B) :
  map fst (zip a b) = take (length (zip a b)) a.
Proof.
  revert b. induction a as [|x a IH]; intros [|y b]; simpl; [done..|].
  by rewrite IH.
Qed.

Lemma snd_zip_take {A B} (a : list A) (b : list B) :
  map snd (zip a b) = take (length (zip a b)) b.
Proof.
  revert b. induction a as [|x a IH]; intros [|y b]; simpl; [done..|].
  by rewrite IH.
Qed.

(** X24. [embed_and_store] calls nothing and stores 0 chunks for an
    empty chunk list. For a non-empty one it calls the embedder once: if
    that raises, the exception is passed on and nothing is inserted; if
    it gives no vector, nothing is inserted and the count is 0; otherwise
    exactly one [insert_documents_batch] follows, whose outcome is the
    outcome of [embed_and_store]. What is inserted is never empty and is
    the chunks in order, as many as the embedder gave vectors for, each
    with its vector, the given source, its own word and character counts,
    and the positions 0, 1, 2, ... as [chunk_index]. *)
Theorem embed_and_store_inserts_numbered_chunks (chunks : list str)
    (source_file : str) (batch_size : Z) :
  match chunks with
  | [] => embed_and_store svc chunks source_file batch_size = ([], inr 0)
  | _ :: _ =>
      match embed_texts svc chunks batch_size with
      | inl e =>
          embed_and_store svc chunks source_file batch_size
          = ([EmbedTexts chunks batch_size], inl e)
      | inr [] =>
          embed_and_store svc chunks source_file batch_size
          = ([EmbedTexts chunks batch_size], inr 0)
      | inr ((_ :: _) as embeddings) =>
          exists documents,
            embed_and_store svc chunks source_file batch_size
            = ([EmbedTexts chunks batch_size; InsertDocumentsBatch documents],
               insert_documents_batch svc documents) /\
            (0 < length documents)%nat /\
            length documents = min (length chunks) (length embeddings) /\
            map ec_content documents = take (length documents) chunks /\
            map ec_embedding documents = take (length documents) embeddings /\
            map ec_chunk_index documents
            = map Z.of_nat (seq 0 (length documents)) /\
            Forall (fun d => ec_source_file d = source_file /\
                             ec_word_count d = len (split (ec_content d)) /\
                             ec_char_count d = len (ec_content d)) documents
      end
  end.
Proof.
  unfold embed_and_store, embed_document_chunks.
  destruct chunks as [|chunk chunks]; [done|].
  cbn [nonempty_list negb].
  set (all := chunk :: chunks).
  destruct (embed_texts svc all batch_size) as [e|embeddings] eqn:Hemb;
    [done|].
  destruct embeddings as [|embedding embeddings]; [done|].
  set (vectors := embedding :: embeddings).
  destruct (embed_document_chunks_loop_spec (zip all vectors)
              source_file 0 []) as (H1 & H2 & H3 & H4).
  cbn [map app] in H1, H2, H3.
  set (docs := embed_document_chunks_loop 0 (zip all vectors)
                 source_file []) in *.
  assert (Hlen : length docs = length (zip all vectors)).
  { rewrite <- (length_map ec_content docs), H1. by rewrite length_map. }
  specialize (H4 ltac:(constructor)).
  clearbody docs.
  destruct docs as [|d docs']; [done|].
  exists (d :: docs').
  cbn [nonempty_list negb].
  split; [done|]. split; [simpl; lia|].
  split; [rewrite Hlen; apply length_zip_with|].
  split; [by rewrite H1, Hlen, fst_zip_take|].
  split; [by rewrite H2, Hlen, snd_zip_take|].
  split; [|done].
  rewrite H3, Hlen. apply map_ext. intros k. lia.
Qed.

End Embedding.

Section IngestAll.
Context {Path Db : Type} (ingest_pdf : Path -> bool -> Db -> result Z * Db).

Lemma ingest_all_pdfs_loop_counts (pdf_files : list Path) (reingest : bool) :
  forall (db : Db) (stats : Stats) (c : Z),
    chunks stats = Some c ->
    0 <= ingested stats -> 0 <= skipped stats -> ingested stats <= c ->
    let out := (ingest_all_pdfs_loop ingest_pdf pdf_files reingest db stats).1 in
    total out = total stats /\
    ingested out + skipped out
    = ingested stats + skipped stats + len pdf_files /\
    0 <= ingested out /\ 0 <= skipped out /\
    exists c', chunks out = Some c' /\ ingested out <= c'.
Proof.
  induction pdf_files as [|pdf rest IH]; intros db stats c Hc Hi Hs Hic; simpl.
  - unfold len. simpl. split; [done|]. split; [lia|]. split; [done|].
    split; [done|]. by exists c.
  - destruct (ingest_pdf pdf reingest db) as [[e|count] db'].
    + destruct (IH db' {| total := total stats; ingested := ingested stats;
                          skipped := skipped stats + 1;
                          chunks := chunks stats |} c)
        as (H1 & H2 & H3 & H4 & H5); simpl in *; try done; try lia.
      split; [done|]. split; [|done]. unfold len in *. simpl. lia.
    + destruct (count >? 0) eqn:E.
      * destruct (IH db' {| total := total stats;
                            ingested := ingested stats + 1;
                            skipped := skipped stats;
                            chunks := (fun c0 => c0 + count) <$> chunks stats |}
                    (c + count))
          as (H1 & H2 & H3 & H4 & H5); simpl in *;
          try (by rewrite Hc); try lia.
        split; [done|]. split; [|done]. unfold len in *. simpl. lia.
      * destruct (IH db' {| total := total stats; ingested := ingested stats;
                            skipped := skipped stats + 1;
                            chunks := chunks stats |} c)
          as (H1 & H2 & H3 & H4 & H5); simpl in *; try done; try lia.
        split; [done|]. split; [|done]. unfold len in *. simpl. lia.
Qed.

(** X25. The statistics of [ingest_all_pdfs] account for every file:
    [ingested + skipped = total], whatever [ingest_pdf] returns or
    raises. With the directory missing or empty all three are 0 and
    there is no ["chunks"] entry; otherwise [total] is the number of PDF
    files and ["chunks"] is at least the number of files ingested. *)
Theorem ingest_all_pdfs_accounts_for_every_file (raw_path_exists : bool)
    (pdf_files : list Path) (reingest : bool) (db : Db) :
  let stats :=
    (ingest_all_pdfs ingest_pdf raw_path_exists pdf_files reingest db).1 in
  ingested stats + skipped stats = total stats /\
  0 <= ingested stats /\ 0 <= skipped stats /\
  match chunks stats with
  | None => total stats = 0 /\
            (raw_path_exists = false \/ pdf_files = [])
  | Some c => total stats = len pdf_files /\ ingested stats <= c /\
              raw_path_exists = true /\ 0 < len pdf_files
  end.
Proof.
  unfold ingest_all_pdfs.
  destruct raw_path_exists; simpl;
    [|split; [done|]; split; [done|]; split; [done|]; split;
      [done | by left]].
  destruct pdf_files as [|pdf rest] eqn:Hfiles;
    [simpl; split; [done|]; split; [done|]; split; [done|]; split;
      [done | by right]|].
  cbn [nonempty_list negb]. rewrite <- Hfiles.
  destruct (ingest_all_pdfs_loop_counts pdf_files reingest db
              {| total := len pdf_files; ingested := 0; skipped := 0;
                 chunks := Some 0 |} 0)
    as (H1 & H2 & H3 & H4 & c' & H5 & H6); simpl in *; try done.
  rewrite H5. split; [lia|]. split; [done|]. split; [done|].
  split; [done|]. split; [done|]. split; [done|].
  subst pdf_files. unfold len. simpl. lia.
Qed.

End IngestAll.

Section LazyModel.
Context {Model : Type} (dimension : Model -> result Z).

Lemma get_embedding_model_cached (loads : list (result Model)) (m : Model) :
  get_embedding_model_calls loads dimension (Some m)
  = map (fun _ => inr m) loads.
Proof. induction loads as [|load rest IH]; simpl; [done | by rewrite IH]. Qed.

Lemma get_embedding_model_returns (load : result Model)
    (cache : option Model) (m : Model) :
  (get_embedding_model load dimension cache).1 = inr m ->
  (get_embedding_model load dimension cache).2 = Some m.
Proof.
  unfold get_embedding_model.
  destruct cache as [m'|]; simpl; [by intros [= ->]|].
  destruct load as [e|m']; simpl; [done|].
  destruct (dimension m'); simpl; [done | by intros [= ->]].
Qed.

(** X26. The embedding model is a process-wide singleton: in any
    sequence of calls to [get_embedding_model], once a call has returned
    a model every later call returns that same model, whatever loading
    would do by then. *)
Theorem get_embedding_model_is_a_singleton (loads : list (result Model))
    (_model : option Model) (i j : nat) (m : Model) :
  get_embedding_model_calls loads dimension _model !! i = Some (inr m) ->
  (i <= j < length loads)%nat ->
  get_embedding_model_calls loads dimension _model !! j = Some (inr m).
Proof.
  revert _model i j.
  induction loads as [|load rest IH]; intros cache i j Hi Hj; simpl in *;
    [lia|].
  pose proof (get_embedding_model_returns load cache m) as Hret.
  destruct (get_embedding_model load dimension cache) as [r cache'].
  destruct i as [|i]; simpl in *.
  - injection Hi as ->. specialize (Hret eq_refl). subst cache'.
    destruct j as [|j]; [done|]. simpl.
    rewrite get_embedding_model_cached, list_lookup_fmap.
    destruct (rest !! j) eqn:E; [done|].
    apply lookup_ge_None in E. lia.
  - destruct j as [|j]; [lia|]. simpl. eapply IH; [exact Hi | lia].
Qed.

End LazyModel.

Lemma get_embedding_model_is_a_singleton_witness :
  get_embedding_model_calls
    [inl (Raised (lit "no network")); inr 1%nat; inl (Raised (lit "x"));
     inr 2%nat]
    (fun _ => inr 384) None !! 3%nat
  = Some (inr 1%nat).
Proof.
  apply (get_embedding_model_is_a_singleton (fun _ : nat => inr 384)
           [inl (Raised (lit "no network")); inr 1%nat;
            inl (Raised (lit "x")); inr 2%nat]
           None 1 3 1%nat).
  - reflexivity.
  - simpl. lia.
Defined.

End IngestExtra.
